(** * ROS3D.MarkerArrayClient: a shallow embedding and its properties

    The client of [src/markers/MarkerArrayClient.js] keeps a registry of
    scene nodes keyed by [ns + id], fed by batches of marker messages, with
    an optional lifetime (polled every 100 ms) and an optional leading-edge
    debounce.  The JavaScript object is embedded as a record, each method
    as a function from client to client, and [setTimeout] as a queue of
    pending tasks that an event loop runs.

    Conventions of the embedding:
    - times are integers, in milliseconds; one callback runs at one
      instant, so every [new Date().getTime()] in it reads the same [now];
    - [ROS3D.Marker] and [ROS3D.SceneNode] are collaborators: a marker is
      an abstract value with its constructor and its [update] method taken
      as parameters, a scene node carries a fresh identity;
    - the root object and the disposed children are sets of node
      identities (THREE.Object3D keeps a child at most once);
    - [console.warn] is recorded by the action identifier it reports. *)

From Stdlib Require Import ZArith String List Lia.
From stdpp Require Import base gmap strings pretty list.

Local Open Scope Z_scope.
#[local] Set Warnings "-clear-no-such-hyp".

(** ** Data *)

Section Client.
Context {Payload Marker : Type}.

(** One element of [arrayMessage.markers]. *)
Record message := Message {
  msg_ns : string;
  msg_id : Z;
  msg_action : Z;
  msg_frame_id : string;
  msg_payload : Payload
}.

(** [new ROS3D.Marker({message, path})] and [Marker.prototype.update],
    which answers whether the marker could be updated in place. *)
Context (Marker_new : message → string → Marker).
Context (Marker_update : Marker → message → bool * Marker).

(** A [ROS3D.SceneNode]: its identity, its frame and [children[0]]. *)
Record SceneNode := {
  node_uid : nat;
  frameID : string;
  object : Marker
}.

(** What a pending [setTimeout] will run. *)
Inductive task :=
| CheckTime (name : string)
| ClearDebounce.

#[global] Instance task_eq_dec : EqDecision task.
Proof. solve_decision. Defined.

Record client := Client {
  lifetime : Z;
  debounceMs : Z;
  path : string;
  debounceTimer : bool;       (* null is false, a timer handle is true *)
  markers : gmap string SceneNode;
  updatedTime : gmap string Z;
  rootObject : gset nat;      (* nodes attached to the root *)
  disposed : gset nat;        (* nodes unsubscribed and disposed of *)
  timers : list (Z * task);   (* pending timeouts with their due time *)
  changes : nat;              (* 'change' events emitted so far *)
  warnings : list Z;          (* console.warn, by action identifier *)
  nextUid : nat               (* identity of the next object created *)
}.

Definition set_debounceTimer (b : bool) (s : client) : client :=
  Client s.(lifetime) s.(debounceMs) s.(path) b s.(markers)
    s.(updatedTime) s.(rootObject) s.(disposed) s.(timers) s.(changes)
    s.(warnings) s.(nextUid).

Definition set_markers (f : gmap string SceneNode → gmap string SceneNode)
    (s : client) : client :=
  Client s.(lifetime) s.(debounceMs) s.(path) s.(debounceTimer)
    (f s.(markers)) s.(updatedTime) s.(rootObject) s.(disposed) s.(timers)
    s.(changes) s.(warnings) s.(nextUid).

Definition set_updatedTime (f : gmap string Z → gmap string Z)
    (s : client) : client :=
  Client s.(lifetime) s.(debounceMs) s.(path) s.(debounceTimer)
    s.(markers) (f s.(updatedTime)) s.(rootObject) s.(disposed) s.(timers)
    s.(changes) s.(warnings) s.(nextUid).

Definition set_rootObject (f : gset nat → gset nat) (s : client) : client :=
  Client s.(lifetime) s.(debounceMs) s.(path) s.(debounceTimer)
    s.(markers) s.(updatedTime) (f s.(rootObject)) s.(disposed) s.(timers)
    s.(changes) s.(warnings) s.(nextUid).

Definition set_disposed (f : gset nat → gset nat) (s : client) : client :=
  Client s.(lifetime) s.(debounceMs) s.(path) s.(debounceTimer)
    s.(markers) s.(updatedTime) s.(rootObject) (f s.(disposed)) s.(timers)
    s.(changes) s.(warnings) s.(nextUid).

Definition set_timers (f : list (Z * task) → list (Z * task))
    (s : client) : client :=
  Client s.(lifetime) s.(debounceMs) s.(path) s.(debounceTimer)
    s.(markers) s.(updatedTime) s.(rootObject) s.(disposed) (f s.(timers))
    s.(changes) s.(warnings) s.(nextUid).

Definition set_nextUid (f : nat → nat) (s : client) : client :=
  Client s.(lifetime) s.(debounceMs) s.(path) s.(debounceTimer)
    s.(markers) s.(updatedTime) s.(rootObject) s.(disposed) s.(timers)
    s.(changes) s.(warnings) (f s.(nextUid)).

(** [this.emit('change')] *)
Definition emit (s : client) : client :=
  Client s.(lifetime) s.(debounceMs) s.(path) s.(debounceTimer)
    s.(markers) s.(updatedTime) s.(rootObject) s.(disposed) s.(timers)
    (S s.(changes)) s.(warnings) s.(nextUid).

(** [console.warn(...)] about action identifier [a] *)
Definition warn (a : Z) (s : client) : client :=
  Client s.(lifetime) s.(debounceMs) s.(path) s.(debounceTimer)
    s.(markers) s.(updatedTime) s.(rootObject) s.(disposed) s.(timers)
    s.(changes) (s.(warnings) ++ [a]) s.(nextUid).

(** [setTimeout(k, delay)] called at time [now] *)
Definition setTimeout (k : task) (delay now : Z) (s : client) : client :=
  set_timers (λ q, q ++ [(now + delay, k)]) s.

(** A number is truthy when it is not zero. *)
Definition truthy (n : Z) : bool := negb (n =? 0).

(** The state the constructor leaves, before any message. *)
Definition MarkerArrayClient (lifetime0 debounceMs0 : Z) (path0 : string)
    : client :=
  Client lifetime0 debounceMs0 path0 false ∅ ∅ ∅ ∅ [] 0%nat [] 0%nat.

(** ** Methods *)

(** [var key = message.ns + message.id] *)
Definition key_of (m : message) : string :=
  msg_ns m +:+ pretty (msg_id m).

Definition removeMarker (key : string) (s : client) : client :=
  let s1 :=
    if truthy s.(lifetime) && bool_decide (key ∈ dom s.(updatedTime))
    then set_updatedTime (delete key) s
    else s in
  match s1.(markers) !! key with
  | None => s1
  | Some oldNode =>
      set_markers (delete key)
        (set_disposed (λ d, d ∪ {[node_uid oldNode]})
          (set_rootObject (λ r, r ∖ {[node_uid oldNode]}) s1))
  end.

(** [curTime - undefined] is NaN and no comparison with NaN holds: a
    name without an entry in [updatedTime] takes the else branch. *)
Definition checkTime (now : Z) (name : string) (s : client) : client :=
  match s.(updatedTime) !! name with
  | Some u =>
      if s.(lifetime) <? now - u
      then emit (removeMarker name s)
      else setTimeout (CheckTime name) 100 now s
  | None => setTimeout (CheckTime name) 100 now s
  end.

(** The "ADD" branch: a new marker in a new scene node, under the root. *)
Definition addMarker (key : string) (m : message) (s : client) : client :=
  let node := {| node_uid := s.(nextUid);
                 frameID := msg_frame_id m;
                 object := Marker_new m s.(path) |} in
  set_rootObject (λ r, r ∪ {[node_uid node]})
    (set_markers <[key := node]> (set_nextUid S s)).

(** The [for (var m in this.markers)] loop and [this.markers = {}].  The
    loop visits the keys in the order of the map; any other order gives
    the same client. *)
Definition removeAll (s : client) : client :=
  set_markers (λ _, ∅)
    (foldl (λ acc m, removeMarker m acc) s (map_to_list s.(markers)).*1).

(** The "MODIFY" branch, with the answer of [update].  A key ends with
    the last digit of the id, so [key in this.markers] finds none of the
    names that an object inherits, only the keys stored. *)
Definition modifyMarker (key : string) (m : message) (s : client)
    : bool * client :=
  match s.(markers) !! key with
  | Some node =>
      let '(updated, mk) := Marker_update (object node) m in
      let s1 := set_markers
        <[key := {| node_uid := node_uid node; frameID := frameID node;
                    object := mk |}]> s in
      if updated then (true, s1) else (false, removeMarker key s1)
  | None => (false, s)
  end.

(** The [if (this.lifetime)] block that opens the loop body: it runs
    for every message, whatever its action. *)
Definition touch (now : Z) (key : string) (s : client) : client :=
  if truthy s.(lifetime)
  then checkTime now key (set_updatedTime <[key := now]> s)
  else s.

(** The body of [arrayMessage.markers.forEach]. *)
Definition processMarker (now : Z) (s : client) (m : message) : client :=
  let key := key_of m in
  let s1 := touch now key s in
  if msg_action m =? 0 then
    let '(updated, s2) := modifyMarker key m s1 in
    if updated then s2 else addMarker key m s2
  else if msg_action m =? 1 then warn 1 s1
  else if msg_action m =? 2 then removeMarker key s1
  else if msg_action m =? 3 then removeAll s1
  else warn (msg_action m) s1.

Definition processMessage (now : Z) (arrayMessage : list message)
    (s : client) : client :=
  emit (foldl (processMarker now) s arrayMessage).

Definition debouncedProcessMessage (now : Z) (arrayMessage : list message)
    (s : client) : client :=
  if s.(debounceTimer) then s
  else
    set_debounceTimer true
      (setTimeout ClearDebounce s.(debounceMs) now
        (processMessage now arrayMessage s)).

(** The handler the constructor subscribes. *)
Definition boundProcessMessage (now : Z) (arrayMessage : list message)
    (s : client) : client :=
  if 0 <? s.(debounceMs)
  then debouncedProcessMessage now arrayMessage s
  else processMessage now arrayMessage s.

(** ** The event loop

    The host runs one callback at a time: a batch from the topic, or a
    timeout that is due.  Timeouts are punctual: one fires at its due
    time, none earlier is left pending when a callback runs, and time
    never goes backwards.  Timeouts due at the same instant fire in any
    order. *)

Inductive event :=
| Recv (t : Z) (arrayMessage : list message)
| Fire (i : nat).

Record world := World { clock : Z; self : client }.

Definition runTask (now : Z) (k : task) (s : client) : client :=
  match k with
  | CheckTime name => checkTime now name s
  | ClearDebounce => set_debounceTimer false s
  end.

(** No pending timeout is due before [t]. *)
Definition none_before (t : Z) (q : list (Z * task)) : bool :=
  forallb (λ p, t <=? p.1) q.

Definition step (e : event) (w : world) : option world :=
  match e with
  | Recv t arrayMessage =>
      if (w.(clock) <=? t) && none_before t w.(self).(timers)
      then Some (World t (boundProcessMessage t arrayMessage w.(self)))
      else None
  | Fire i =>
      match w.(self).(timers) !! i with
      | Some (d, k) =>
          if (w.(clock) <=? d) && none_before d w.(self).(timers)
          then Some (World d
                 (runTask d k (set_timers (delete i) w.(self))))
          else None
      | None => None
      end
  end.

Fixpoint run (es : list event) (w : world) : option world :=
  match es with
  | [] => Some w
  | e :: es' =>
      match step e w with
      | Some w' => run es' w'
      | None => None
      end
  end.

(** ** The replay of the specification

    The key set that the actions of a batch imply, following the words
    of the specification: UPSERT adds the key, DELETE drops it,
    DELETE_ALL empties the set, anything else leaves it. *)

Definition replay_one (ks : gset string) (m : message) : gset string :=
  if msg_action m =? 0 then ks ∪ {[key_of m]}
  else if msg_action m =? 2 then ks ∖ {[key_of m]}
  else if msg_action m =? 3 then ∅
  else ks.

Definition replay (ks : gset string) (arrayMessage : list message)
    : gset string :=
  foldl replay_one ks arrayMessage.

(** ** Predicates of the properties *)

(** A node is released when it is off the root and disposed of. *)
Definition released (n : SceneNode) (s : client) : Prop :=
  (node_uid n ∉ rootObject s) ∧ (node_uid n ∈ disposed s).

(** An action identifier the client only warns about. *)
Definition skipped (a : Z) : Prop := a = 1 ∨ (a ≠ 0 ∧ a ≠ 2 ∧ a ≠ 3).

(** The fields that only the constructor and the debounce gate write. *)
Definition same_gate (s s' : client) : Prop :=
  lifetime s' = lifetime s
  ∧ debounceMs s' = debounceMs s
  ∧ debounceTimer s' = debounceTimer s.

(** The timers only grow, and by expiry checks. *)
Definition timers_grow (s s' : client) : Prop :=
  ∃ l, timers s' = timers s ++ l
       ∧ ∀ p, p ∈ l → ∃ name, p.2 = CheckTime name.

(** Every key of the registry has an expiry check pending. *)
Definition armed (s : client) : Prop :=
  ∀ k, k ∈ dom (markers s) → ∃ d, (d, CheckTime k) ∈ timers s.

(** The number of expiry checks pending for a name. *)
Definition checks_pending (name : string) (s : client) : nat :=
  length (filter (λ p, p.2 = CheckTime name) (timers s)).

(** No batch of the run has a message for the key. *)
Definition quiet (key : string) (es : list event) : Prop :=
  ∀ t b m, Recv t b ∈ es → m ∈ b → key_of m ≠ key.

(** The pending timeouts that clear the debounce handle. *)
Definition clears (q : list (Z * task)) : list (Z * task) :=
  filter (λ p, p.2 = ClearDebounce) q.

(** The window of the gate: [None] when no window is open (no handle in
    [debounceTimer], no timeout to clear it pending), [Some d] when one
    is open until [d] (a handle, and the timeout that clears it due at
    [d] and no other). *)
Definition window (s : client) (o : option Z) : Prop :=
  match o with
  | None => debounceTimer s = false ∧ clears (timers s) = []
  | Some d =>
      debounceTimer s = true ∧ clears (timers s) = [(d, ClearDebounce)]
  end.

(** Whether the handler passes a batch on to [processMessage]. *)
Definition forwards (s : client) : bool :=
  negb (0 <? debounceMs s) || negb (debounceTimer s).

(** How many batches of a run reach [processMessage]. *)
Fixpoint applied (es : list event) (w : world) : nat :=
  match es with
  | [] => 0
  | e :: es' =>
      match step e w with
      | Some w' =>
          match e with
          | Recv _ _ => if forwards (self w) then 1 else 0
          | Fire _ => 0
          end%nat + applied es' w'
      | None => 0
      end
  end%nat.

(** The batches that arrive in a run, and their times. *)
Definition arrivals (es : list event) : list Z :=
  omap (λ e, match e with Recv t _ => Some t | Fire _ => None end) es.

(** Each arrival is more than [W] after the one before. *)
Fixpoint spaced (W : Z) (prev : Z) (ts : list Z) : Prop :=
  match ts with
  | [] => True
  | t :: ts' => prev + W < t ∧ spaced W t ts'
  end.

(** The same from the first arrival on, which nothing precedes. *)
Definition well_spaced (W : Z) (ts : list Z) : Prop :=
  match ts with
  | [] => True
  | t :: ts' => spaced W t ts'
  end.

(** An entity under [key], if there is one, was last written at [t0] and
    has an expiry check due no later than one poll after its lifetime. *)
Definition expiring (key : string) (t0 : Z) (s : client) : Prop :=
  key ∈ dom (markers s) →
  updatedTime s !! key = Some t0
  ∧ ∃ d, (d, CheckTime key) ∈ timers s ∧ d ≤ t0 + lifetime s + 100.

(** The scene graph agrees with the registry: the nodes of the registry
    are older than the next identity and differ from key to key, the root
    holds exactly the nodes of the registry, and a node disposed of is
    off the root for good. *)
Definition attached (s : client) : Prop :=
  (∀ k n, markers s !! k = Some n → (node_uid n < nextUid s)%nat)
  ∧ (∀ k1 k2 n1 n2,
       markers s !! k1 = Some n1 → markers s !! k2 = Some n2 →
       node_uid n1 = node_uid n2 → k1 = k2)
  ∧ (∀ u, u ∈ rootObject s ↔ ∃ k n, markers s !! k = Some n ∧ node_uid n = u)
  ∧ (∀ u, u ∈ disposed s → (u < nextUid s)%nat ∧ u ∉ rootObject s).

(** ** The subscription

    [subscribe] and [unsubscribe] talk to a [ROSLIB.Topic], a
    collaborator of which only this is kept: every [new ROSLIB.Topic] is
    a new object, [topic.subscribe(handler)] registers the handler on it
    and [topic.unsubscribe(handler)] takes it off.  [listeners] are the
    topics on which the handler of the client is registered. *)

Record subscriber := Subscriber {
  me : client;
  rosTopic : option nat;      (* undefined is None *)
  listeners : gset nat;
  nextTopic : nat             (* identity of the next topic created *)
}.

Definition unsubscribe (c : subscriber) : subscriber :=
  match c.(rosTopic) with
  | Some t => Subscriber c.(me) c.(rosTopic) (c.(listeners) ∖ {[t]})
                c.(nextTopic)
  | None => c
  end.

Definition subscribe (c : subscriber) : subscriber :=
  let c1 := unsubscribe c in
  Subscriber c1.(me) (Some c1.(nextTopic))
    (c1.(listeners) ∪ {[c1.(nextTopic)]}) (S c1.(nextTopic)).

(** The whole constructor: the fields, then [this.subscribe()]. *)
Definition construct (lifetime0 debounceMs0 : Z) (path0 : string)
    : subscriber :=
  subscribe
    (Subscriber (MarkerArrayClient lifetime0 debounceMs0 path0) None ∅ 0%nat).

(** A batch published on a topic reaches the handler registered on it. *)
Definition deliver (topic : nat) (now : Z) (arrayMessage : list message)
    (c : subscriber) : subscriber :=
  if decide (topic ∈ c.(listeners))
  then Subscriber (boundProcessMessage now arrayMessage c.(me))
         c.(rosTopic) c.(listeners) c.(nextTopic)
  else c.

(** The handler is registered on the current topic at most, and topics
    are older than the next one. *)
Definition tidy (c : subscriber) : Prop :=
  (∀ t, t ∈ listeners c → rosTopic c = Some t)
  ∧ (∀ t, rosTopic c = Some t → (t < nextTopic c)%nat).

End Client.

(** ** A test instance

    Markers that are only their kind (the [type] of the ROS message, kept
    as the payload): a marker is updated in place by a message of its own
    kind and rejects any other.  The clients are the constructor's, with
    a lifetime of one second, with nothing, and with a debounce window of
    200 ms. *)

Definition kind_new (m : @message Z) (p : string) : Z := msg_payload m.

Definition kind_update (mk : Z) (m : @message Z) : bool * Z :=
  (mk =? msg_payload m, mk).

Definition msg (ns : string) (id action kind : Z) : @message Z :=
  Message ns id action "map" kind.

Definition client_ttl : @client Z := MarkerArrayClient 1000 0 "/".

Definition client_plain : @client Z := MarkerArrayClient 0 0 "/".

Definition client_debounced : @client Z := MarkerArrayClient 0 200 "/".

(** An UPSERT of a cube at 0 and of a sphere under the same key at 50:
    the second is rejected by the cube and recreates the entity. *)
Definition recreate_events : list (@event Z) :=
  [Recv 0 [msg "a" 1 0 1]; Recv 50 [msg "a" 1 0 2]].

(** * Properties *)

Section Properties.
Context {Payload Marker : Type}.
Context (Marker_new : @message Payload → string → Marker).
Context (Marker_update : Marker → @message Payload → bool * Marker).

Local Abbreviation addMarker := (addMarker Marker_new).
Local Abbreviation modifyMarker := (modifyMarker Marker_update).
Local Abbreviation processMarker := (processMarker Marker_new Marker_update).
Local Abbreviation processMessage :=
  (processMessage Marker_new Marker_update).
Local Abbreviation debouncedProcessMessage :=
  (debouncedProcessMessage Marker_new Marker_update).
Local Abbreviation boundProcessMessage :=
  (boundProcessMessage Marker_new Marker_update).
Local Abbreviation step := (step Marker_new Marker_update).
Local Abbreviation run := (run Marker_new Marker_update).
Local Abbreviation applied := (applied Marker_new Marker_update).
Local Abbreviation MarkerArrayClient := (@MarkerArrayClient Marker).

Implicit Types (s : @client Marker) (n : @SceneNode Marker).
Implicit Types (m : @message Payload) (w : @world Marker).
Implicit Types (e : @event Payload) (es : list (@event Payload)).
Implicit Types (b arrayMessage rest : list (@message Payload)).

(** ** Frame lemmas *)

Lemma removeMarker_lifetime k s :
  lifetime (removeMarker k s) = lifetime s.
Proof.
  unfold removeMarker.
  destruct (truthy _ && _); simpl; destruct (_ !! k); reflexivity.
Qed.

Lemma removeMarker_markers k s :
  markers (removeMarker k s) = delete k (markers s).
Proof.
  unfold removeMarker.
  destruct (truthy _ && _); simpl;
    destruct (markers s !! k) eqn:E; simpl;
    try reflexivity; symmetry; by apply delete_id.
Qed.

Lemma removeMarker_updatedTime k s :
  updatedTime (removeMarker k s)
  = if truthy (lifetime s) then delete k (updatedTime s) else updatedTime s.
Proof.
  unfold removeMarker.
  destruct (truthy (lifetime s)); simpl.
  - case_bool_decide as Hk; simpl; destruct (markers s !! k); simpl;
      try reflexivity; symmetry; apply delete_id;
      by apply not_elem_of_dom.
  - destruct (markers s !! k); reflexivity.
Qed.

Lemma removeMarker_timers k s : timers (removeMarker k s) = timers s.
Proof.
  unfold removeMarker.
  destruct (truthy _ && _); simpl; destruct (_ !! k); reflexivity.
Qed.

Lemma removeMarker_changes k s : changes (removeMarker k s) = changes s.
Proof.
  unfold removeMarker.
  destruct (truthy _ && _); simpl; destruct (_ !! k); reflexivity.
Qed.

(** [removeMarker] field by field. *)
Lemma removeMarker_eq k s :
  removeMarker k s
  = Client (lifetime s) (debounceMs s) (path s) (debounceTimer s)
      (delete k (markers s))
      (if truthy (lifetime s) then delete k (updatedTime s)
       else updatedTime s)
      (rootObject s ∖ from_option (λ n, {[node_uid n]}) ∅ (markers s !! k))
      (disposed s ∪ from_option (λ n, {[node_uid n]}) ∅ (markers s !! k))
      (timers s) (changes s) (warnings s) (nextUid s).
Proof.
  unfold removeMarker. destruct s as [l W p g ms ut r dis q c ws u]. simpl.
  destruct (truthy l); simpl; [case_bool_decide as Hk; simpl|];
    destruct (ms !! k) as [n|] eqn:E;
    unfold set_markers, set_disposed, set_rootObject, set_updatedTime;
    simpl; f_equal;
    first [ done
          | by (symmetry; apply delete_id)
          | by (symmetry; apply delete_id, not_elem_of_dom)
          | set_solver ].
Qed.

(** The removals of two keys commute, so the order in which the
    [for ... in] loop of DELETE_ALL visits the registry does not matter. *)
Lemma removeMarker_comm k1 k2 s :
  removeMarker k1 (removeMarker k2 s) = removeMarker k2 (removeMarker k1 s).
Proof.
  destruct (decide (k1 = k2)) as [->|Hne]; [done|].
  rewrite (removeMarker_eq k1 (removeMarker k2 s)).
  rewrite (removeMarker_eq k2 (removeMarker k1 s)).
  rewrite (removeMarker_eq k1 s), (removeMarker_eq k2 s). simpl.
  rewrite !lookup_delete_ne by done.
  f_equal; [apply delete_delete| |set_solver..].
  destruct (truthy _); [apply delete_delete|done].
Qed.

Lemma removeAll_fold_perm ks ks' s :
  ks ≡ₚ ks' →
  foldl (λ acc key, removeMarker key acc) s ks
  = foldl (λ acc key, removeMarker key acc) s ks'.
Proof.
  intros Hp. revert s.
  induction Hp as [|k ks ks' _ IH|k1 k2 ks|ks1 ks2 ks3 _ IH1 _ IH2];
    intros s; simpl.
  - done.
  - apply IH.
  - by rewrite (removeMarker_comm k1 k2 s).
  - rewrite IH1. apply IH2.
Qed.

Lemma removeAll_fold_lifetime ks s :
  lifetime (foldl (λ acc key, removeMarker key acc) s ks) = lifetime s.
Proof.
  revert s; induction ks as [|k ks IH]; intros s; simpl; [done|].
  by rewrite IH, removeMarker_lifetime.
Qed.

Lemma removeAll_fold_timers ks s :
  timers (foldl (λ acc key, removeMarker key acc) s ks) = timers s.
Proof.
  revert s; induction ks as [|k ks IH]; intros s; simpl; [done|].
  by rewrite IH, removeMarker_timers.
Qed.

Lemma removeAll_fold_changes ks s :
  changes (foldl (λ acc key, removeMarker key acc) s ks) = changes s.
Proof.
  revert s; induction ks as [|k ks IH]; intros s; simpl; [done|].
  by rewrite IH, removeMarker_changes.
Qed.

(** With a lifetime that is not negative, the check that [touch] runs
    finds the time it has just written, and only arms a timeout. *)
Lemma touch_spec now k s :
  0 ≤ lifetime s →
  touch now k s
  = if truthy (lifetime s)
    then setTimeout (CheckTime k) 100 now (set_updatedTime <[k := now]> s)
    else s.
Proof.
  intros HL. unfold touch, checkTime.
  destruct (truthy (lifetime s)); [|done]. simpl.
  rewrite lookup_insert_eq.
  destruct (Z.ltb_spec (lifetime s) (now - now)); [lia|done].
Qed.

Lemma touch_lifetime now k s :
  0 ≤ lifetime s → lifetime (touch now k s) = lifetime s.
Proof. intros HL. rewrite touch_spec by done. by destruct (truthy _). Qed.

Lemma touch_markers now k s :
  0 ≤ lifetime s → markers (touch now k s) = markers s.
Proof. intros HL. rewrite touch_spec by done. by destruct (truthy _). Qed.

Lemma touch_changes now k s :
  0 ≤ lifetime s → changes (touch now k s) = changes s.
Proof. intros HL. rewrite touch_spec by done. by destruct (truthy _). Qed.

Lemma modifyMarker_lifetime k m s :
  lifetime (modifyMarker k m s).2 = lifetime s.
Proof.
  unfold modifyMarker. destruct (markers s !! k) as [node|]; [|done].
  destruct (Marker_update _ _) as [[] mk]; simpl; [done|].
  by rewrite removeMarker_lifetime.
Qed.

Lemma modifyMarker_changes k m s :
  changes (modifyMarker k m s).2 = changes s.
Proof.
  unfold modifyMarker. destruct (markers s !! k) as [node|]; [|done].
  destruct (Marker_update _ _) as [[] mk]; simpl; [done|].
  by rewrite removeMarker_changes.
Qed.

(** After the MODIFY branch the key is bound exactly when the update
    was made in place. *)
Lemma modifyMarker_dom k m s :
  dom (markers (modifyMarker k m s).2)
  = if (modifyMarker k m s).1 then dom (markers s)
    else dom (markers s) ∖ {[k]}.
Proof.
  unfold modifyMarker. destruct (markers s !! k) as [node|] eqn:E.
  - destruct (Marker_update _ _) as [[] mk]; simpl.
    + rewrite dom_insert_L. apply elem_of_dom_2 in E. set_solver.
    + rewrite removeMarker_markers. simpl.
      rewrite dom_delete_L, dom_insert_L. set_solver.
  - simpl. apply not_elem_of_dom in E. set_solver.
Qed.

Lemma modifyMarker_updated k m s :
  (modifyMarker k m s).1 = true → k ∈ dom (markers s).
Proof.
  unfold modifyMarker. destruct (markers s !! k) as [node|] eqn:E.
  - intros _. by apply elem_of_dom_2 in E.
  - done.
Qed.

Lemma processMarker_lifetime now s m :
  0 ≤ lifetime s → lifetime (processMarker now s m) = lifetime s.
Proof.
  intros HL. unfold processMarker.
  pose proof (touch_lifetime now (key_of m) s HL) as Ht.
  destruct (msg_action m =? 0).
  { pose proof (modifyMarker_lifetime (key_of m) m (touch now (key_of m) s))
      as Hm.
    destruct (modifyMarker _ _ _) as [[] s2]; simpl in *; congruence. }
  destruct (msg_action m =? 1); [done|].
  destruct (msg_action m =? 2); [by rewrite removeMarker_lifetime|].
  destruct (msg_action m =? 3); [|done].
  simpl. by rewrite removeAll_fold_lifetime.
Qed.

Lemma processMarker_dom now s m :
  0 ≤ lifetime s →
  dom (markers (processMarker now s m)) = replay_one (dom (markers s)) m.
Proof.
  intros HL. unfold processMarker, replay_one.
  pose proof (touch_markers now (key_of m) s HL) as Ht.
  destruct (msg_action m =? 0).
  { pose proof (modifyMarker_dom (key_of m) m (touch now (key_of m) s)) as Hd.
    pose proof (modifyMarker_updated (key_of m) m (touch now (key_of m) s))
      as Hu.
    destruct (modifyMarker _ _ _) as [[] s2]; simpl in *.
    - rewrite Hd, Ht. rewrite Ht in Hu. set_solver.
    - rewrite dom_insert_L, Hd, Ht.
      apply set_eq; intros x. rewrite !elem_of_union, elem_of_difference.
      destruct (decide (x = key_of m)); set_solver. }
  destruct (Z.eqb_spec (msg_action m) 1) as [->|_];
    [cbn [warn markers Z.eqb Pos.eqb]; by rewrite Ht|].
  destruct (msg_action m =? 2).
  { by rewrite removeMarker_markers, dom_delete_L, Ht. }
  destruct (msg_action m =? 3); [simpl; by rewrite dom_empty_L|].
  cbn [warn markers]; by rewrite Ht.
Qed.

Lemma foldl_processMarker_lifetime now b s :
  0 ≤ lifetime s → lifetime (foldl (processMarker now) s b) = lifetime s.
Proof.
  revert s; induction b as [|m b IH]; intros s HL; simpl; [done|].
  rewrite IH; rewrite processMarker_lifetime; done.
Qed.

(** ** C1: the registry follows the replay *)

(** C1. After a batch is processed by a client whose lifetime is not
    negative, the keys of the registry are those that replaying the
    UPSERT, DELETE and DELETE_ALL messages of the batch, in array order,
    gives from the keys before the batch; the constructor leaves an
    empty registry for the first batch to start from. *)
Theorem processMessage_keys_replay now arrayMessage s :
  0 ≤ lifetime s →
  dom (markers (processMessage now arrayMessage s))
  = replay (dom (markers s)) arrayMessage
  ∧ ∀ l d p, dom (markers (MarkerArrayClient l d p)) = ∅.
Proof.
  intros HL. split; [|intros; apply dom_empty_L].
  unfold processMessage, replay. simpl.
  revert s HL; induction arrayMessage as [|m b IH]; intros s HL; simpl.
  - done.
  - rewrite IH by (by rewrite processMarker_lifetime).
    by rewrite processMarker_dom.
Qed.

(** ** C6: one change signal for a batch *)

Lemma processMarker_changes now s m :
  0 ≤ lifetime s → changes (processMarker now s m) = changes s.
Proof.
  intros HL. unfold processMarker.
  pose proof (touch_changes now (key_of m) s HL) as Ht.
  destruct (msg_action m =? 0).
  { pose proof (modifyMarker_changes (key_of m) m (touch now (key_of m) s))
      as Hm.
    destruct (modifyMarker _ _ _) as [[] s2]; simpl in *; congruence. }
  destruct (msg_action m =? 1); [done|].
  destruct (msg_action m =? 2); [by rewrite removeMarker_changes|].
  destruct (msg_action m =? 3); [|done].
  simpl. by rewrite removeAll_fold_changes.
Qed.

(** C6. Whatever the messages of a batch, and also when it has none,
    applying them emits no change signal, and exactly one is emitted
    once the whole batch has been applied (lifetime not negative). *)
Theorem processMessage_one_change now arrayMessage s :
  0 ≤ lifetime s →
  changes (foldl (processMarker now) s arrayMessage) = changes s
  ∧ changes (processMessage now arrayMessage s) = S (changes s).
Proof.
  intros HL.
  assert (changes (foldl (processMarker now) s arrayMessage) = changes s)
    as Hf.
  { revert s HL; induction arrayMessage as [|m b IH]; intros s HL; simpl.
    - done.
    - rewrite IH by (by rewrite processMarker_lifetime).
      by apply processMarker_changes. }
  split; [done|]. unfold processMessage. simpl. by rewrite Hf.
Qed.

(** ** C8: DELETE_ALL *)

Lemma removeMarker_rootObject k s :
  rootObject (removeMarker k s) ⊆ rootObject s.
Proof.
  unfold removeMarker.
  destruct (truthy _ && _); simpl; destruct (_ !! k); simpl; set_solver.
Qed.

Lemma removeMarker_disposed k s :
  disposed s ⊆ disposed (removeMarker k s).
Proof.
  unfold removeMarker.
  destruct (truthy _ && _); simpl; destruct (_ !! k); simpl; set_solver.
Qed.

Lemma removeMarker_released k n s :
  markers s !! k = Some n → released n (removeMarker k s).
Proof.
  intros E. unfold removeMarker, released.
  destruct (truthy _ && _); simpl; rewrite E; simpl; set_solver.
Qed.

Lemma released_mono n s s' :
  rootObject s' ⊆ rootObject s → disposed s ⊆ disposed s' →
  released n s → released n s'.
Proof. unfold released. set_solver. Qed.

Lemma removeAll_fold_mono ks s :
  (rootObject (foldl (λ acc key, removeMarker key acc) s ks) ⊆ rootObject s)
  ∧ (disposed s ⊆ disposed (foldl (λ acc key, removeMarker key acc) s ks)).
Proof.
  revert s; induction ks as [|k ks IH]; intros s; simpl; [done|].
  destruct (IH (removeMarker k s)) as [Hr Hd].
  pose proof (removeMarker_rootObject k s).
  pose proof (removeMarker_disposed k s).
  split; set_solver.
Qed.

Lemma removeAll_fold_released ks s k n :
  k ∈ ks → markers s !! k = Some n →
  released n (foldl (λ acc key, removeMarker key acc) s ks).
Proof.
  revert s; induction ks as [|k0 ks IH]; intros s Hin E; simpl.
  - by apply elem_of_nil in Hin.
  - destruct (decide (k = k0)) as [->|Hne].
    + destruct (removeAll_fold_mono ks (removeMarker k0 s)).
      eapply released_mono; [done..|]. by apply removeMarker_released.
    + apply IH.
      * apply elem_of_cons in Hin. by destruct Hin.
      * by rewrite removeMarker_markers, lookup_delete_ne.
Qed.

(** What [touch] may do to a node of the registry: nothing, or, when
    the check it runs evicts at once, release it. *)
Lemma touch_keeps_or_releases now key s k n :
  markers s !! k = Some n →
  (markers (touch now key s) !! k = Some n ∨ released n (touch now key s))
  ∧ (rootObject (touch now key s) ⊆ rootObject s)
  ∧ (disposed s ⊆ disposed (touch now key s)).
Proof.
  intros E. unfold touch. destruct (truthy (lifetime s)); [|by auto].
  unfold checkTime. simpl. rewrite lookup_insert_eq.
  destruct (_ <? _); [|by auto].
  set (s0 := set_updatedTime _ s).
  change (rootObject (emit (removeMarker key s0)))
    with (rootObject (removeMarker key s0)).
  change (disposed (emit (removeMarker key s0)))
    with (disposed (removeMarker key s0)).
  change (markers (emit (removeMarker key s0)))
    with (markers (removeMarker key s0)).
  change (released n (emit (removeMarker key s0)))
    with (released n (removeMarker key s0)).
  split; [|split;
    [apply (removeMarker_rootObject key s0)
    |apply (removeMarker_disposed key s0)]].
  destruct (decide (k = key)) as [->|Hne].
  - right. by apply (removeMarker_released key).
  - left. by rewrite removeMarker_markers, lookup_delete_ne.
Qed.

Lemma delete_all_markers now s m :
  msg_action m = 3 → markers (processMarker now s m) = ∅.
Proof. intros Ha. unfold processMarker. by rewrite Ha. Qed.

(** C8. Whatever the registry holds and whatever the namespace and the
    id of the message, a DELETE_ALL message leaves the registry without
    a key, and every node it held is off the root and disposed of. *)
Theorem delete_all_empties now s m :
  msg_action m = 3 →
  markers (processMarker now s m) = ∅
  ∧ dom (markers (processMarker now s m)) = ∅
  ∧ ∀ k n, markers s !! k = Some n → released n (processMarker now s m).
Proof.
  intros Ha. unfold processMarker. rewrite Ha. simpl.
  split; [done|]. split; [apply dom_empty_L|].
  intros k n E. set (s1 := touch now (key_of m) s).
  change (released n (foldl (λ acc key, removeMarker key acc) s1
                        (map_to_list (markers s1)).*1)).
  destruct (touch_keeps_or_releases now (key_of m) s k n E)
    as ([E1|Hrel] & Hr & Hd); fold s1 in E1 || fold s1 in Hrel.
  - apply (removeAll_fold_released _ _ k); [|done].
    apply list_elem_of_fmap. exists (k, n). split; [done|].
    by apply elem_of_map_to_list.
  - destruct (removeAll_fold_mono (map_to_list (markers s1)).*1 s1).
    by eapply released_mono.
Qed.

(** ** C3: deprecated and unknown actions *)

Lemma processMarker_skipped now s m :
  skipped (msg_action m) →
  processMarker now s m = warn (msg_action m) (touch now (key_of m) s).
Proof.
  unfold processMarker. intros [->|(H0 & H2 & H3)]; [done|].
  destruct (Z.eqb_spec (msg_action m) 0); [done|].
  destruct (Z.eqb_spec (msg_action m) 1) as [->|]; [done|].
  destruct (Z.eqb_spec (msg_action m) 2); [done|].
  destruct (Z.eqb_spec (msg_action m) 3); done.
Qed.

(** C3, amended. A DEPRECATED or unknown action leaves the registry,
    the root and the disposed nodes as they are, emits no change signal
    and one diagnostic, and the batch goes on with the next message.
    With lifetime 0 nothing else changes.  With a positive lifetime the
    message still writes the current time under its key in
    [updatedTime] and arms one expiry check for that key. *)
Theorem skipped_action_effect now s m arrayMessage :
  skipped (msg_action m) → 0 ≤ lifetime s →
  let s' := processMarker now s m in
  markers s' = markers s
  ∧ rootObject s' = rootObject s
  ∧ disposed s' = disposed s
  ∧ changes s' = changes s
  ∧ warnings s' = warnings s ++ [msg_action m]
  ∧ foldl (processMarker now) s (m :: arrayMessage)
    = foldl (processMarker now) s' arrayMessage
  ∧ (lifetime s = 0 → s' = warn (msg_action m) s)
  ∧ (0 < lifetime s →
     updatedTime s' = <[key_of m := now]> (updatedTime s)
     ∧ timers s' = timers s ++ [(now + 100, CheckTime (key_of m))]).
Proof.
  intros Hs HL s'.
  assert (foldl (processMarker now) s (m :: arrayMessage)
          = foldl (processMarker now) s' arrayMessage) as Hfold by done.
  revert Hfold. generalize (foldl (processMarker now) s (m :: arrayMessage)).
  generalize (foldl (processMarker now) s' arrayMessage).
  intros c1 c2 Hfold. subst s'.
  rewrite (processMarker_skipped now s m Hs), touch_spec by done.
  unfold truthy.
  destruct (Z.eqb_spec (lifetime s) 0) as [E|E]; simpl;
    repeat split; try done; lia.
Qed.

(** ** C9: keys *)

Lemma key_of_same_ns m1 m2 :
  msg_ns m1 = msg_ns m2 → msg_id m1 ≠ msg_id m2 → key_of m1 ≠ key_of m2.
Proof.
  unfold key_of. intros -> Hid Hk. apply Hid.
  apply (inj (String.append (msg_ns m2))) in Hk.
  by apply (inj pretty) in Hk.
Qed.

Lemma append_cons c a p : String c a +:+ p = String c (a +:+ p).
Proof. reflexivity. Qed.

Lemma append_length a p :
  String.length (a +:+ p) = (String.length a + String.length p)%nat.
Proof.
  induction a as [|c a IH]; [done|]. rewrite append_cons. simpl.
  by rewrite IH.
Qed.

Lemma append_inj_r (a a' p : string) : a +:+ p = a' +:+ p → a = a'.
Proof.
  revert a'; induction a as [|c a IH]; intros [|c' a'] E; [done|..].
  - apply (f_equal String.length) in E. change ("" +:+ p) with p in E.
    rewrite append_length in E. simpl in E. lia.
  - apply (f_equal String.length) in E. change ("" +:+ p) with p in E.
    rewrite append_length in E. simpl in E. lia.
  - rewrite !append_cons in E. injection E as -> E. f_equal. by apply IH.
Qed.

Lemma key_of_same_id m1 m2 :
  msg_id m1 = msg_id m2 → msg_ns m1 ≠ msg_ns m2 → key_of m1 ≠ key_of m2.
Proof.
  unfold key_of. intros -> Hns Hk. apply Hns. by apply append_inj_r in Hk.
Qed.

Lemma removeMarker_other_updatedTime k k' s :
  k ≠ k' → updatedTime (removeMarker k s) !! k' = updatedTime s !! k'.
Proof.
  intros Hne. rewrite removeMarker_updatedTime.
  destruct (truthy _); [|done]. by rewrite lookup_delete_ne.
Qed.

Lemma touch_other now key s k :
  key ≠ k →
  markers (touch now key s) !! k = markers s !! k
  ∧ updatedTime (touch now key s) !! k = updatedTime s !! k.
Proof.
  intros Hne. unfold touch. destruct (truthy (lifetime s)); [|done].
  unfold checkTime. simpl. rewrite lookup_insert_eq.
  destruct (_ <? _); simpl.
  - set (s0 := set_updatedTime _ s).
    change (markers (emit (removeMarker key s0)))
      with (markers (removeMarker key s0)).
    change (updatedTime (emit (removeMarker key s0)))
      with (updatedTime (removeMarker key s0)).
    rewrite removeMarker_markers, removeMarker_other_updatedTime by done.
    rewrite lookup_delete_ne by done. simpl.
    by rewrite lookup_insert_ne.
  - by rewrite lookup_insert_ne.
Qed.

Lemma modifyMarker_other key m s k :
  key ≠ k →
  markers (modifyMarker key m s).2 !! k = markers s !! k
  ∧ updatedTime (modifyMarker key m s).2 !! k = updatedTime s !! k.
Proof.
  intros Hne. unfold modifyMarker.
  destruct (markers s !! key) as [node|]; [|done].
  destruct (Marker_update _ _) as [[] mk]; simpl.
  - by rewrite lookup_insert_ne.
  - rewrite removeMarker_markers, removeMarker_other_updatedTime by done.
    rewrite lookup_delete_ne by done. simpl.
    by rewrite lookup_insert_ne.
Qed.

(** A message that is not DELETE_ALL leaves what is stored under any
    key other than its own. *)
Lemma processMarker_other now s m k :
  key_of m ≠ k → msg_action m ≠ 3 →
  markers (processMarker now s m) !! k = markers s !! k
  ∧ updatedTime (processMarker now s m) !! k = updatedTime s !! k.
Proof.
  intros Hne H3. unfold processMarker.
  destruct (touch_other now (key_of m) s k Hne) as [Hm Hu].
  destruct (msg_action m =? 0).
  { destruct (modifyMarker_other (key_of m) m (touch now (key_of m) s) k Hne)
      as [Hm' Hu'].
    destruct (modifyMarker _ _ _) as [[] s2]; simpl in *.
    - by rewrite Hm', Hu'.
    - rewrite lookup_insert_ne by done. by rewrite Hm', Hu'. }
  destruct (msg_action m =? 1); [done|].
  destruct (msg_action m =? 2).
  { rewrite removeMarker_markers, removeMarker_other_updatedTime by done.
    by rewrite lookup_delete_ne. }
  destruct (Z.eqb_spec (msg_action m) 3); done.
Qed.

(** C9, amended. The key of a message is its namespace followed by its
    id in decimal.  Two messages of one namespace with different ids, or
    of different namespaces with one id, have different keys, and a
    message that is not DELETE_ALL leaves the entity and the update time
    stored under every key other than its own. *)
Theorem key_separates_entities now s m1 m2 :
  (msg_ns m1 = msg_ns m2 → msg_id m1 ≠ msg_id m2 → key_of m1 ≠ key_of m2)
  ∧ (msg_id m1 = msg_id m2 → msg_ns m1 ≠ msg_ns m2 → key_of m1 ≠ key_of m2)
  ∧ (key_of m1 ≠ key_of m2 → msg_action m1 ≠ 3 →
     markers (processMarker now s m1) !! key_of m2
     = markers s !! key_of m2
     ∧ updatedTime (processMarker now s m1) !! key_of m2
       = updatedTime s !! key_of m2).
Proof.
  split; [apply key_of_same_ns|]. split; [apply key_of_same_id|].
  intros. by apply processMarker_other.
Qed.

(** ** C7: the same UPSERT twice *)

Lemma truthy_pos l : 0 < l → truthy l = true.
Proof. unfold truthy. intros H. destruct (Z.eqb_spec l 0); [lia|done]. Qed.

Lemma truthy_zero l : l = 0 → truthy l = false.
Proof. by intros ->. Qed.

Lemma modifyMarker_in_place key m s n :
  markers s !! key = Some n → (Marker_update (object n) m).1 = true →
  modifyMarker key m s
  = (true, set_markers
       <[key := {| node_uid := node_uid n; frameID := frameID n;
                   object := (Marker_update (object n) m).2 |}]> s).
Proof.
  intros E Hu. unfold modifyMarker. rewrite E.
  destruct (Marker_update _ _) as [[] mk]; simpl in *; done.
Qed.

Lemma upsert_present now s m :
  0 ≤ lifetime s → msg_action m = 0 →
  is_Some (markers (processMarker now s m) !! key_of m).
Proof.
  intros HL Ha. apply elem_of_dom. rewrite processMarker_dom by done.
  unfold replay_one. rewrite Ha. set_solver.
Qed.

Lemma upsert_in_place now s m n :
  0 ≤ lifetime s → msg_action m = 0 →
  markers s !! key_of m = Some n →
  (Marker_update (object n) m).1 = true →
  processMarker now s m
  = set_markers
      <[key_of m := {| node_uid := node_uid n; frameID := frameID n;
                       object := (Marker_update (object n) m).2 |}]>
      (if truthy (lifetime s)
       then setTimeout (CheckTime (key_of m)) 100 now
              (set_updatedTime <[key_of m := now]> s)
       else s).
Proof.
  intros HL Ha E Hu. unfold processMarker. rewrite Ha. simpl.
  rewrite touch_spec by done.
  set (s1 := if truthy (lifetime s) then _ else _).
  assert (markers s1 = markers s) as Hm
    by (subst s1; by destruct (truthy _)).
  by rewrite (modifyMarker_in_place (key_of m) m s1 n)
    by (rewrite ?Hm; done).
Qed.

(** C7, amended. An UPSERT always leaves an entity under its key.  When
    the same message is applied again and the update of that entity's
    marker accepts it, the key is bound to the same node, with the
    marker updated in place: no node is created, detached or disposed
    of, and the key set is the same.  With a positive lifetime
    [updatedTime] holds the time of the second application; with
    lifetime 0 the client records no time at all. *)
Theorem upsert_twice_in_place t1 t2 s m :
  0 ≤ lifetime s → msg_action m = 0 →
  let s1 := processMarker t1 s m in
  let s2 := processMarker t2 s1 m in
  ∃ n1, markers s1 !! key_of m = Some n1
    ∧ ((Marker_update (object n1) m).1 = true →
       ∃ n2, markers s2 !! key_of m = Some n2
         ∧ node_uid n2 = node_uid n1
         ∧ frameID n2 = frameID n1
         ∧ object n2 = (Marker_update (object n1) m).2
         ∧ dom (markers s2) = dom (markers s1)
         ∧ rootObject s2 = rootObject s1
         ∧ disposed s2 = disposed s1
         ∧ nextUid s2 = nextUid s1
         ∧ (0 < lifetime s → updatedTime s2 !! key_of m = Some t2)
         ∧ (lifetime s = 0 → updatedTime s2 = updatedTime s1)).
Proof.
  intros HL Ha s1 s2.
  destruct (upsert_present t1 s m HL Ha) as [n1 E1]. fold s1 in E1.
  exists n1. split; [done|]. intros Hu.
  assert (lifetime s1 = lifetime s) as HL1
    by (by apply processMarker_lifetime).
  assert (0 ≤ lifetime s1) as HL1' by lia.
  rewrite HL1 in HL1'. clear HL1'.
  pose proof (upsert_in_place t2 s1 m n1 ltac:(lia) Ha E1 Hu) as Heq.
  fold s2 in Heq. rewrite Heq. clearbody s1 s2.
  eexists. simpl. rewrite lookup_insert_eq. split; [done|].
  simpl. split_and!; try done.
  - rewrite dom_insert_L. destruct (truthy _); simpl;
      apply elem_of_dom_2 in E1; set_solver.
  - by destruct (truthy _).
  - by destruct (truthy _).
  - by destruct (truthy _).
  - intros Hpos. rewrite truthy_pos by lia. simpl.
    by rewrite lookup_insert_eq.
  - intros Hz. by rewrite truthy_zero by lia.
Qed.

(** ** C10: destroy and recreate *)

Lemma modifyMarker_rejected key m s n :
  markers s !! key = Some n → (Marker_update (object n) m).1 = false →
  modifyMarker key m s
  = (false, removeMarker key (set_markers
       <[key := {| node_uid := node_uid n; frameID := frameID n;
                   object := (Marker_update (object n) m).2 |}]> s)).
Proof.
  intros E Hu. unfold modifyMarker. rewrite E.
  destruct (Marker_update _ _) as [[] mk]; simpl in *; done.
Qed.

Lemma removeMarker_nextUid k s : nextUid (removeMarker k s) = nextUid s.
Proof.
  unfold removeMarker.
  destruct (truthy _ && _); simpl; destruct (_ !! k); reflexivity.
Qed.

Lemma removeMarker_path k s : path (removeMarker k s) = path s.
Proof.
  unfold removeMarker.
  destruct (truthy _ && _); simpl; destruct (_ !! k); reflexivity.
Qed.

Lemma addMarker_markers key m s :
  markers (addMarker key m s)
  = <[key := {| node_uid := nextUid s; frameID := msg_frame_id m;
                object := Marker_new m (path s) |}]> (markers s).
Proof. reflexivity. Qed.

Lemma addMarker_updatedTime key m s :
  updatedTime (addMarker key m s) = updatedTime s.
Proof. reflexivity. Qed.

Lemma addMarker_lifetime key m s :
  lifetime (addMarker key m s) = lifetime s.
Proof. reflexivity. Qed.

Lemma addMarker_timers key m s : timers (addMarker key m s) = timers s.
Proof. reflexivity. Qed.

(** The state after an UPSERT of a bound key whose update is rejected:
    a new node is bound, and the entry that [touch] wrote in
    [updatedTime] is gone. *)
Lemma upsert_recreate now s m n :
  0 < lifetime s → msg_action m = 0 →
  markers s !! key_of m = Some n →
  (Marker_update (object n) m).1 = false →
  let s' := processMarker now s m in
  markers s' !! key_of m
  = Some {| node_uid := nextUid s; frameID := msg_frame_id m;
            object := Marker_new m (path s) |}
  ∧ updatedTime s' !! key_of m = None
  ∧ lifetime s' = lifetime s
  ∧ timers s' = timers s ++ [(now + 100, CheckTime (key_of m))].
Proof.
  intros HL Ha E Hu s'. subst s'. unfold processMarker. rewrite Ha. simpl.
  rewrite touch_spec, truthy_pos by lia.
  set (s1 := setTimeout _ _ _ _).
  rewrite (modifyMarker_rejected (key_of m) m s1 n) by done.
  set (s2 := set_markers _ s1).
  rewrite addMarker_markers, addMarker_updatedTime, addMarker_lifetime,
    addMarker_timers.
  rewrite removeMarker_nextUid, removeMarker_path, removeMarker_lifetime,
    removeMarker_timers, removeMarker_updatedTime.
  split_and!; try done.
  - by rewrite lookup_insert_eq.
  - simpl. rewrite truthy_pos by lia. by rewrite lookup_delete_eq.
Qed.

(** ** What a message does to the configuration and to the timers *)

Lemma same_gate_refl s : same_gate s s.
Proof. by unfold same_gate. Qed.

Lemma same_gate_trans s1 s2 s3 :
  same_gate s1 s2 → same_gate s2 s3 → same_gate s1 s3.
Proof. unfold same_gate. intros (-> & -> & ->) (-> & -> & ->). done. Qed.

Lemma removeMarker_gate k s : same_gate s (removeMarker k s).
Proof.
  unfold removeMarker, same_gate.
  destruct (truthy _ && _); simpl; destruct (_ !! k); done.
Qed.

Lemma removeAll_fold_gate ks s :
  same_gate s (foldl (λ acc key, removeMarker key acc) s ks).
Proof.
  revert s; induction ks as [|k ks IH]; intros s; simpl.
  - apply same_gate_refl.
  - eapply same_gate_trans; [apply (removeMarker_gate k)|apply IH].
Qed.

Lemma timers_grow_refl s s' : timers s' = timers s → timers_grow s s'.
Proof.
  intros E. exists []. rewrite app_nil_r. split; [done|].
  intros p Hp. by apply elem_of_nil in Hp.
Qed.

Lemma timers_grow_trans s1 s2 s3 :
  timers_grow s1 s2 → timers_grow s2 s3 → timers_grow s1 s3.
Proof.
  intros (l1 & E1 & H1) (l2 & E2 & H2). exists (l1 ++ l2).
  split; [by rewrite E2, E1, app_assoc|].
  intros p Hp. apply elem_of_app in Hp. destruct Hp; auto.
Qed.

Lemma checkTime_gate now name s : same_gate s (checkTime now name s).
Proof.
  unfold checkTime. destruct (_ !! name); [destruct (_ <? _)|];
    try done.
  apply (removeMarker_gate name s).
Qed.

Lemma checkTime_timers_grow now name s : timers_grow s (checkTime now name s).
Proof.
  assert (timers_grow s (setTimeout (CheckTime name) 100 now s)) as Hs.
  { eexists. split; [done|]. intros p Hp.
    apply list_elem_of_singleton in Hp. subst p. by eexists. }
  unfold checkTime. destruct (_ !! name); [destruct (_ <? _)|]; try done.
  apply timers_grow_refl. apply (removeMarker_timers name s).
Qed.

Lemma touch_gate now key s : same_gate s (touch now key s).
Proof.
  unfold touch. destruct (truthy _); [|apply same_gate_refl].
  apply (checkTime_gate now key (set_updatedTime _ s)).
Qed.

Lemma touch_timers_grow now key s : timers_grow s (touch now key s).
Proof.
  unfold touch. destruct (truthy _); [|by apply timers_grow_refl].
  apply (checkTime_timers_grow now key (set_updatedTime _ s)).
Qed.

Lemma modifyMarker_gate key m s : same_gate s (modifyMarker key m s).2.
Proof.
  unfold modifyMarker. destruct (markers s !! key); [|apply same_gate_refl].
  destruct (Marker_update _ _) as [[] mk]; simpl; [done|].
  apply (removeMarker_gate key (set_markers _ s)).
Qed.

Lemma modifyMarker_timers key m s :
  timers (modifyMarker key m s).2 = timers s.
Proof.
  unfold modifyMarker. destruct (markers s !! key); [|done].
  destruct (Marker_update _ _) as [[] mk]; simpl; [done|].
  by rewrite removeMarker_timers.
Qed.

(** After [touch], a message changes neither the gate nor the timers. *)
Lemma processMarker_after_touch now s m :
  same_gate (touch now (key_of m) s) (processMarker now s m)
  ∧ timers (processMarker now s m) = timers (touch now (key_of m) s).
Proof.
  unfold processMarker. set (s1 := touch _ _ _).
  destruct (msg_action m =? 0).
  { pose proof (modifyMarker_gate (key_of m) m s1) as Hg.
    pose proof (modifyMarker_timers (key_of m) m s1) as Ht.
    destruct (modifyMarker _ _ _) as [[] s2]; simpl in *; done. }
  destruct (msg_action m =? 1); [done|].
  destruct (msg_action m =? 2).
  { split; [apply removeMarker_gate|apply removeMarker_timers]. }
  destruct (msg_action m =? 3); [|done].
  split; [apply (removeAll_fold_gate _ s1)|].
  apply (removeAll_fold_timers _ s1).
Qed.

Lemma processMarker_gate now s m : same_gate s (processMarker now s m).
Proof.
  eapply same_gate_trans; [apply (touch_gate now (key_of m))|].
  apply processMarker_after_touch.
Qed.

Lemma processMarker_timers_grow now s m :
  timers_grow s (processMarker now s m).
Proof.
  eapply timers_grow_trans; [apply (touch_timers_grow now (key_of m))|].
  apply timers_grow_refl. apply processMarker_after_touch.
Qed.

Lemma processMarker_timers now s m :
  0 < lifetime s →
  timers (processMarker now s m)
  = timers s ++ [(now + 100, CheckTime (key_of m))].
Proof.
  intros HL. destruct (processMarker_after_touch now s m) as [_ ->].
  rewrite touch_spec, truthy_pos by lia. done.
Qed.

Lemma processMessage_gate now b s : same_gate s (processMessage now b s).
Proof.
  unfold processMessage.
  assert (same_gate s (foldl (processMarker now) s b)) as H; [|done].
  revert s; induction b as [|m b IH]; intros s; simpl.
  - apply same_gate_refl.
  - eapply same_gate_trans; [apply (processMarker_gate now s m)|apply IH].
Qed.

Lemma processMessage_timers_grow now b s :
  timers_grow s (processMessage now b s).
Proof.
  unfold processMessage.
  assert (timers_grow s (foldl (processMarker now) s b)) as H; [|done].
  revert s; induction b as [|m b IH]; intros s; simpl.
  - by apply timers_grow_refl.
  - eapply timers_grow_trans; [apply (processMarker_timers_grow now s m)|].
    apply IH.
Qed.

(** ** C2: expiry checks of the entities *)

Lemma elem_of_delete_other {A} (l : list A) i x y :
  l !! i = Some x → y ∈ l → y ≠ x → y ∈ delete i l.
Proof.
  intros Hi Hy Hne. apply list_elem_of_lookup in Hy as [j Hj].
  apply list_elem_of_lookup.
  destruct (decide (j < i)%nat) as [Hlt|Hge].
  - exists j. by rewrite list_lookup_delete_lt.
  - assert (j ≠ i) by (intros ->; congruence).
    exists (pred j). rewrite list_lookup_delete_ge by lia.
    by replace (S (pred j)) with j by lia.
Qed.

Lemma processMarker_armed now s m :
  0 < lifetime s → armed s → armed (processMarker now s m).
Proof.
  intros HL Ha k Hk. rewrite processMarker_dom in Hk by lia.
  rewrite processMarker_timers by done.
  assert (k ∈ dom (markers s) ∨ k = key_of m) as [Hin| ->].
  { unfold replay_one in Hk. repeat case_match; set_solver. }
  - destruct (Ha k Hin) as [d Hd]. exists d. set_solver.
  - exists (now + 100). set_solver.
Qed.

Lemma processMessage_armed now b s :
  0 < lifetime s → armed s → armed (processMessage now b s).
Proof.
  intros HL Ha. unfold processMessage.
  assert (armed (foldl (processMarker now) s b)) as H; [|done].
  revert s HL Ha; induction b as [|m b IH]; intros s HL Ha; simpl; [done|].
  apply IH; [|by apply processMarker_armed].
  rewrite processMarker_lifetime; lia.
Qed.

Lemma boundProcessMessage_armed now b s :
  0 < lifetime s → armed s → armed (boundProcessMessage now b s).
Proof.
  intros HL Ha. pose proof (processMessage_armed now b s HL Ha) as Hp.
  unfold boundProcessMessage, debouncedProcessMessage.
  destruct (0 <? debounceMs s); [|done].
  destruct (debounceTimer s); [done|].
  intros k Hk. destruct (Hp k Hk) as [d Hd]. exists d. simpl. set_solver.
Qed.

Lemma boundProcessMessage_lifetime now b s :
  lifetime (boundProcessMessage now b s) = lifetime s.
Proof.
  pose proof (processMessage_gate now b s) as (Hl & _).
  unfold boundProcessMessage, debouncedProcessMessage.
  destruct (0 <? debounceMs s); [|done]. by destruct (debounceTimer s).
Qed.

Lemma runTask_lifetime d k s : lifetime (runTask d k s) = lifetime s.
Proof.
  destruct k as [name|]; simpl; [|done]. apply checkTime_gate.
Qed.

Lemma runTask_armed d i k s :
  armed s → timers s !! i = Some (d, k) →
  armed (runTask d k (set_timers (delete i) s)).
Proof.
  intros Ha Hi.
  assert (∀ k', CheckTime k' ≠ k → k' ∈ dom (markers s) →
          ∃ d', (d', CheckTime k') ∈ delete i (timers s)) as Hkeep.
  { intros k' Hne Hk'. destruct (Ha k' Hk') as [d' Hd']. exists d'.
    apply (elem_of_delete_other _ _ (d, k)); [done..|]. congruence. }
  destruct k as [name|]; simpl; [|by intros k' Hk'; apply Hkeep].
  set (s0 := set_timers (delete i) s).
  assert (armed (setTimeout (CheckTime name) 100 d s0)) as Hre.
  { intros k' Hk'. simpl in *.
    destruct (decide (k' = name)) as [->|Hne].
    - exists (d + 100). set_solver.
    - destruct (Hkeep k') as [d' Hd']; [congruence|done|].
      exists d'. set_solver. }
  unfold checkTime. destruct (updatedTime s0 !! name); [|done].
  destruct (_ <? _); [|done].
  intros k' Hk'.
  change (markers (emit (removeMarker name s0)))
    with (markers (removeMarker name s0)) in Hk'.
  change (timers (emit (removeMarker name s0)))
    with (timers (removeMarker name s0)).
  rewrite removeMarker_markers, dom_delete_L in Hk'.
  rewrite removeMarker_timers. simpl in *.
  apply Hkeep; [|set_solver]. intros [= ->]. set_solver.
Qed.

Lemma step_armed e w w' :
  0 < lifetime (self w) → armed (self w) → step e w = Some w' →
  armed (self w') ∧ lifetime (self w') = lifetime (self w).
Proof.
  intros HL Ha Hstep. destruct e as [t b|i]; simpl in Hstep.
  - destruct (_ && _); [|done]. injection Hstep as <-. simpl.
    split; [by apply boundProcessMessage_armed|].
    apply boundProcessMessage_lifetime.
  - destruct (timers (self w) !! i) as [[d k]|] eqn:Hi; [|done].
    destruct (_ && _); [|done]. injection Hstep as <-. simpl.
    split; [by apply (runTask_armed d i k)|].
    by rewrite runTask_lifetime.
Qed.

Lemma constructor_armed l d p : armed (MarkerArrayClient l d p).
Proof. intros k Hk. simpl in Hk. set_solver. Qed.

(** C2, amended. With a positive lifetime every entity of the registry
    has at least one expiry check pending (several when several messages
    named its key, each of them arming one more), and every operation of
    the client keeps it so: a batch, direct or through the debounce gate,
    an expiry check that evicts or re-arms, the end of a debounce
    window; hence along every run of the event loop. *)
Theorem entities_stay_armed es w w' :
  0 < lifetime (self w) → armed (self w) → run es w = Some w' →
  armed (self w') ∧ lifetime (self w') = lifetime (self w).
Proof.
  revert w; induction es as [|e es IH]; intros w HL Ha Hrun; simpl in Hrun.
  - by injection Hrun as <-.
  - destruct (step e w) as [w1|] eqn:Hstep; [|done].
    destruct (step_armed e w w1 HL Ha Hstep) as [Ha1 HL1].
    destruct (IH w1 ltac:(lia) Ha1 Hrun) as [Ha' HL'].
    split; [done|congruence].
Qed.

(** ** C10: the recreated entity and the expiry checks *)

Lemma removeMarker_keeps_absent k key s :
  updatedTime s !! key = None → updatedTime (removeMarker k s) !! key = None.
Proof.
  intros E. rewrite removeMarker_updatedTime. destruct (truthy _); [|done].
  destruct (decide (k = key)) as [->|Hne].
  - apply lookup_delete_eq.
  - by rewrite lookup_delete_ne.
Qed.

Lemma removeAll_fold_keeps_absent ks key s :
  updatedTime s !! key = None →
  updatedTime (foldl (λ acc key, removeMarker key acc) s ks) !! key = None.
Proof.
  revert s; induction ks as [|k ks IH]; intros s E; simpl; [done|].
  apply IH. by apply removeMarker_keeps_absent.
Qed.

Lemma processMarker_keeps_absent now s m key :
  key_of m ≠ key → updatedTime s !! key = None →
  updatedTime (processMarker now s m) !! key = None.
Proof.
  intros Hne E. destruct (decide (msg_action m = 3)) as [H3|H3].
  - unfold processMarker. rewrite H3. simpl.
    apply removeAll_fold_keeps_absent.
    destruct (touch_other now (key_of m) s key Hne) as [_ ->]. done.
  - destruct (processMarker_other now s m key Hne H3) as [_ ->]. done.
Qed.

Lemma processMessage_keeps_absent now b s key :
  (∀ m, m ∈ b → key_of m ≠ key) → updatedTime s !! key = None →
  updatedTime (foldl (processMarker now) s b) !! key = None
  ∧ updatedTime (processMessage now b s) !! key = None.
Proof.
  intros Hb E.
  assert (updatedTime (foldl (processMarker now) s b) !! key = None) as H;
    [|done].
  revert s E; induction b as [|m b IH]; intros s E; simpl; [done|].
  apply IH.
  - intros m' Hm'. apply Hb. by right.
  - apply processMarker_keeps_absent; [|done]. apply Hb. by left.
Qed.

Lemma boundProcessMessage_keeps_absent now b s key :
  (∀ m, m ∈ b → key_of m ≠ key) → updatedTime s !! key = None →
  updatedTime (boundProcessMessage now b s) !! key = None.
Proof.
  intros Hb E.
  destruct (processMessage_keeps_absent now b s key Hb E) as [_ Hp].
  unfold boundProcessMessage, debouncedProcessMessage.
  destruct (0 <? debounceMs s); [|done]. by destruct (debounceTimer s).
Qed.

(** A check of a name without an entry in [updatedTime] re-arms. *)
Lemma checkTime_absent now name s :
  updatedTime s !! name = None →
  checkTime now name s = setTimeout (CheckTime name) 100 now s.
Proof. intros E. unfold checkTime. by rewrite E. Qed.

Lemma runTask_keeps_absent d k s key :
  updatedTime s !! key = None →
  updatedTime (runTask d k s) !! key = None
  ∧ markers (runTask d k s) !! key = markers s !! key.
Proof.
  intros E. destruct k as [name|]; simpl; [|done].
  destruct (decide (name = key)) as [->|Hne].
  - by rewrite checkTime_absent.
  - unfold checkTime. destruct (updatedTime s !! name); [|done].
    destruct (_ <? _); [|done].
    change (updatedTime (emit (removeMarker name s)))
      with (updatedTime (removeMarker name s)).
    change (markers (emit (removeMarker name s)))
      with (markers (removeMarker name s)).
    rewrite removeMarker_markers, lookup_delete_ne by done.
    split; [|done]. by apply removeMarker_keeps_absent.
Qed.

Lemma step_fire_keeps_absent i w w' key :
  updatedTime (self w) !! key = None → step (Fire i) w = Some w' →
  updatedTime (self w') !! key = None
  ∧ markers (self w') !! key = markers (self w) !! key.
Proof.
  intros E Hstep. simpl in Hstep.
  destruct (timers (self w) !! i) as [[d k]|]; [|done].
  destruct (_ && _); [|done]. injection Hstep as <-. simpl.
  by apply (runTask_keeps_absent d k (set_timers (delete i) (self w)) key).
Qed.

Lemma run_keeps_absent es w w' key :
  updatedTime (self w) !! key = None → quiet key es → run es w = Some w' →
  updatedTime (self w') !! key = None.
Proof.
  revert w; induction es as [|e es IH]; intros w E Hq Hrun; simpl in Hrun.
  - by injection Hrun as <-.
  - destruct (step e w) as [w1|] eqn:Hstep; [|done].
    apply (IH w1); [|intros t b m Hin; apply (Hq t b m); by right|done].
    destruct e as [t b|i].
    + simpl in Hstep. destruct (_ && _); [|done].
      injection Hstep as <-. simpl.
      apply boundProcessMessage_keeps_absent; [|done].
      intros m Hm. apply (Hq t b m); [by left|done].
    + by destruct (step_fire_keeps_absent i w w1 key E Hstep).
Qed.

Lemma run_app es1 es2 w :
  run (es1 ++ es2) w
  = match run es1 w with Some w1 => run es2 w1 | None => None end.
Proof.
  revert w; induction es1 as [|e es1 IH]; intros w; simpl; [done|].
  destruct (step e w); [apply IH|done].
Qed.

(** While a key has no entry in [updatedTime], timeouts that fire leave
    its entity as it is, however many of them fire. *)
Lemma fires_keep_entity (ixs : list nat) w w' key :
  updatedTime (self w) !! key = None →
  run (Fire <$> ixs) w = Some w' →
  updatedTime (self w') !! key = None
  ∧ markers (self w') !! key = markers (self w) !! key.
Proof.
  revert w; induction ixs as [|i ixs IH]; intros w E Hrun.
  - simpl in Hrun. by injection Hrun as <-.
  - change (match step (Fire i) w with
            | Some w1 => run (Fire <$> ixs) w1
            | None => None
            end = Some w') in Hrun.
    destruct (step (Fire i) w) as [w1|] eqn:Hstep; [|done].
    destruct (step_fire_keeps_absent i w w1 key E Hstep) as [E1 Hm1].
    destruct (IH w1 E1 Hrun) as [E' Hm']. split; [done|congruence].
Qed.

(** C10, amended. With a positive lifetime, an UPSERT of a bound key
    whose in-place update is rejected leaves a new node under the key and
    no entry for the key in [updatedTime].  The entry stays absent through
    the rest of the batch and along every run in which no message names
    the key, whatever its action, and while it is absent no expiry check
    that fires changes the entity of the key. *)
Theorem recreated_entity_outlives_checks now s m n :
  0 < lifetime s → msg_action m = 0 →
  markers s !! key_of m = Some n →
  (Marker_update (object n) m).1 = false →
  let s' := processMarker now s m in
  markers s' !! key_of m
  = Some {| node_uid := nextUid s; frameID := msg_frame_id m;
            object := Marker_new m (path s) |}
  ∧ updatedTime s' !! key_of m = None
  ∧ (∀ rest, (∀ m', m' ∈ rest → key_of m' ≠ key_of m) →
     updatedTime (processMessage now rest s') !! key_of m = None
     ∧ markers (processMessage now rest s') !! key_of m
       = markers (foldl (processMarker now) s' rest) !! key_of m)
  ∧ (∀ w es w1,
     updatedTime (self w) !! key_of m = None → quiet (key_of m) es →
     run es w = Some w1 →
     updatedTime (self w1) !! key_of m = None
     ∧ ∀ i w2, step (Fire i) w1 = Some w2 →
         markers (self w2) !! key_of m = markers (self w1) !! key_of m).
Proof.
  intros HL Ha E Hu s'.
  destruct (upsert_recreate now s m n HL Ha E Hu) as (Hm & Hut & _ & _).
  fold s' in Hm, Hut. split_and!; try done.
  - intros rest Hrest. split; [|done].
    by apply processMessage_keeps_absent.
  - intros w es w1 Hw Hq Hrun.
    pose proof (run_keeps_absent es w w1 (key_of m) Hw Hq Hrun) as H1.
    split; [done|]. intros i w2 Hstep.
    by destruct (step_fire_keeps_absent i w1 w2 (key_of m) H1 Hstep).
Qed.

(** ** C5: the debounce gate *)

Lemma none_before_le t q d k :
  none_before t q = true → (d, k) ∈ q → t ≤ d.
Proof.
  unfold none_before. induction q as [|p q IH]; simpl; intros Hq Hin.
  - by apply elem_of_nil in Hin.
  - apply andb_true_iff in Hq as [Hp Hq].
    apply elem_of_cons in Hin as [<-|Hin]; [simpl in Hp; lia|auto].
Qed.

Lemma clears_elem d q : clears q = [(d, ClearDebounce)] → (d, ClearDebounce) ∈ q.
Proof.
  intros E. assert ((d, ClearDebounce) ∈ clears q) as H by (rewrite E; by left).
  unfold clears in H. by apply list_elem_of_filter in H as [_ H].
Qed.

Lemma clears_app q l :
  (∀ p, p ∈ l → ∃ name, p.2 = CheckTime name) → clears (q ++ l) = clears q.
Proof.
  intros Hl. unfold clears. rewrite filter_app.
  replace (filter _ l) with (@nil (Z * task)); [by rewrite app_nil_r|].
  symmetry. induction l as [|p l IH]; [done|].
  destruct (Hl p) as [name Hp]; [by left|].
  rewrite filter_cons_False by (rewrite Hp; done).
  apply IH. intros p' Hp'. apply Hl. by right.
Qed.

Lemma clears_delete q i d k :
  q !! i = Some (d, k) →
  clears q
  = clears (take i q) ++ (if decide (k = ClearDebounce) then [(d, k)] else [])
    ++ clears (drop (S i) q)
  ∧ clears (delete i q) = clears (take i q) ++ clears (drop (S i) q).
Proof.
  intros Hi. unfold clears. rewrite delete_take_drop, filter_app.
  split; [|done].
  rewrite <- (take_drop_middle q i (d, k)) at 1 by done.
  rewrite filter_app, filter_cons. simpl.
  by destruct (decide (k = ClearDebounce)).
Qed.

Lemma clears_delete_check q i d name :
  q !! i = Some (d, CheckTime name) → clears (delete i q) = clears q.
Proof.
  intros Hi. destruct (clears_delete q i d _ Hi) as [-> ->].
  by destruct (decide _).
Qed.

Lemma clears_delete_clear q i d :
  q !! i = Some (d, ClearDebounce) →
  clears q = [] ∨ length (clears q) = S (length (clears (delete i q)))
  ∧ (d, ClearDebounce) ∈ clears q.
Proof.
  intros Hi. destruct (clears_delete q i d _ Hi) as [-> ->]. right.
  destruct (decide _); [|done]. rewrite !length_app. simpl. split; [lia|].
  set_solver.
Qed.

(** A batch that the gate lets through opens a window. *)
Lemma recv_opens_window t b s :
  0 < debounceMs s → window s None →
  boundProcessMessage t b s
  = set_debounceTimer true
      (setTimeout ClearDebounce (debounceMs s) t (processMessage t b s))
  ∧ window (boundProcessMessage t b s) (Some (t + debounceMs s))
  ∧ debounceMs (boundProcessMessage t b s) = debounceMs s.
Proof.
  intros HW [Hd Hc]. unfold boundProcessMessage, debouncedProcessMessage.
  destruct (Z.ltb_spec 0 (debounceMs s)); [|lia]. rewrite Hd.
  destruct (processMessage_gate t b s) as (_ & HW' & _).
  destruct (processMessage_timers_grow t b s) as (l & El & Hl).
  generalize dependent (processMessage t b s). intros sp HW' El.
  split; [done|]. split; [|done]. split; [done|]. simpl.
  rewrite El. unfold clears. rewrite filter_app.
  fold (clears (timers s ++ l)). rewrite clears_app, Hc by done.
  rewrite filter_cons_True by done. done.
Qed.

(** A batch that arrives while the window is open is dropped whole. *)
Lemma recv_dropped t b s d :
  0 < debounceMs s → window s (Some d) → boundProcessMessage t b s = s.
Proof.
  intros HW [Hd _]. unfold boundProcessMessage, debouncedProcessMessage.
  destruct (Z.ltb_spec 0 (debounceMs s)); [|lia]. by rewrite Hd.
Qed.

(** What a timeout that fires does to the window. *)
Lemma fire_window i w w' o :
  window (self w) o → step (Fire i) w = Some w' →
  debounceMs (self w') = debounceMs (self w)
  ∧ clock w ≤ clock w'
  ∧ match o with
    | None => window (self w') None
    | Some d =>
        window (self w') (Some d)
        ∨ (window (self w') None ∧ clock w' = d
           ∧ timers (self w) !! i = Some (d, ClearDebounce))
    end.
Proof.
  intros Hw Hstep. simpl in Hstep.
  destruct (timers (self w) !! i) as [[d k]|] eqn:Hi; [|done].
  destruct (Z.leb_spec (clock w) d); [|done]. simpl in Hstep.
  destruct (none_before _ _); [|done]. injection Hstep as <-. simpl.
  set (s0 := set_timers (delete i) (self w)).
  destruct k as [name|]; simpl.
  - destruct (checkTime_gate d name s0) as (_ & HW & HT).
    destruct (checkTime_timers_grow d name s0) as (l & El & Hl).
    assert (clears (timers (checkTime d name s0)) = clears (timers (self w)))
      as Hc.
    { rewrite El, clears_app by done. simpl.
      by apply (clears_delete_check _ _ d name). }
    split; [done|]. split; [done|].
    destruct o as [d0|]; [left|]; destruct Hw as [Hd Hcl];
      (split; [by rewrite HT|by rewrite Hc]).
  - split; [done|]. split; [done|].
    destruct (clears_delete_clear _ _ _ Hi) as [Hnil|[Hlen Hin]].
    + destruct (clears_delete (timers (self w)) i d _ Hi) as [E _].
      rewrite Hnil in E. destruct (decide _); [|done].
      by destruct (clears (take i _)).
    + destruct o as [d0|]; destruct Hw as [Hd Hcl]; rewrite Hcl in *.
      * right. apply list_elem_of_singleton in Hin. injection Hin as ->.
        split; [|done]. split; [done|]. simpl in *.
        destruct (clears (delete i _)); [done|]. simpl in Hlen. lia.
      * by apply elem_of_nil in Hin.
Qed.

Lemma boundProcessMessage_debounceMs now b s :
  debounceMs (boundProcessMessage now b s) = debounceMs s.
Proof.
  pose proof (processMessage_gate now b s) as (_ & HW & _).
  unfold boundProcessMessage, debouncedProcessMessage.
  destruct (0 <? debounceMs s); [|done]. by destruct (debounceTimer s).
Qed.

Lemma step_frame e w w' :
  step e w = Some w' →
  clock w ≤ clock w' ∧ debounceMs (self w') = debounceMs (self w).
Proof.
  intros Hstep. destruct e as [t b|i]; simpl in Hstep.
  - destruct (Z.leb_spec (clock w) t); [|done]. simpl in Hstep.
    destruct (none_before _ _); [|done]. injection Hstep as <-. simpl.
    split; [done|]. apply boundProcessMessage_debounceMs.
  - destruct (timers (self w) !! i) as [[d k]|]; [|done].
    destruct (Z.leb_spec (clock w) d); [|done]. simpl in Hstep.
    destruct (none_before _ _); [|done]. injection Hstep as <-. simpl.
    split; [done|]. destruct k as [name|]; simpl; [|done].
    apply (checkTime_gate d name (set_timers _ _)).
Qed.

Lemma forwards_open s d :
  0 < debounceMs s → window s (Some d) → forwards s = false.
Proof.
  intros HW [Hd _]. unfold forwards. rewrite Hd.
  by destruct (Z.ltb_spec 0 (debounceMs s)); [|lia].
Qed.

Lemma forwards_closed s : window s None → forwards s = true.
Proof. intros [Hd _]. unfold forwards. rewrite Hd. apply orb_true_r. Qed.

(** While the window is open until [D], or once the clock has reached
    [D], batches that arrive before [D] are not applied. *)
Lemma applied_in_window es w D :
  0 < debounceMs (self w) →
  window (self w) (Some D) ∨ D ≤ clock w →
  (∀ t, t ∈ arrivals es → t < D) →
  applied es w = 0%nat.
Proof.
  revert w; induction es as [|e es IH]; intros w HW Hw Hts; simpl; [done|].
  destruct (step e w) as [w1|] eqn:Hstep; [|done].
  destruct (step_frame e w w1 Hstep) as [Hclock HW1].
  destruct e as [t b|i].
  - assert (t < D) as Ht by (apply Hts; simpl; by left).
    simpl in Hstep. destruct (Z.leb_spec (clock w) t); [|done].
    simpl in Hstep. destruct (none_before _ _); [|done].
    injection Hstep as <-. destruct Hw as [Hw|Hw]; [|lia].
    rewrite (forwards_open _ D) by done. simpl.
    rewrite (recv_dropped t b (self w) D) by done.
    apply IH; simpl.
    + done.
    + by left.
    + intros t' Ht'. apply Hts. simpl. by right.
  - simpl. apply IH; [lia| |intros t' Ht'; by apply Hts].
    destruct Hw as [Hw|Hw]; [|right; lia].
    destruct (fire_window i w w1 _ Hw Hstep) as (_ & _ & [Ho|(_ & Hc & _)]).
    + by left.
    + right. lia.
Qed.

(** Batches more than [W] apart are all applied. *)
Lemma applied_spaced es w w' W prev :
  debounceMs (self w) = W → 0 < W →
  (∃ o, window (self w) o ∧ ∀ d, o = Some d → d ≤ prev + W) →
  spaced W prev (arrivals es) →
  run es w = Some w' →
  applied es w = length (arrivals es).
Proof.
  revert w prev; induction es as [|e es IH];
    intros w prev HW Hpos (o & Hw & Ho) Hsp Hrun; simpl; [done|].
  simpl in Hrun. destruct (step e w) as [w1|] eqn:Hstep; [|done].
  destruct (step_frame e w w1 Hstep) as [Hclock HW1].
  destruct e as [t b|i].
  - simpl in Hsp. destruct Hsp as [Ht Hsp].
    simpl in Hstep. destruct (Z.leb_spec (clock w) t); [|done].
    simpl in Hstep. destruct (none_before _ _) eqn:Hnb; [|done].
    injection Hstep as <-. destruct o as [d|].
    { pose proof (none_before_le _ _ d ClearDebounce Hnb) as Hle.
      destruct Hw as [_ Hc]. apply clears_elem in Hc.
      specialize (Hle Hc). specialize (Ho d eq_refl). lia. }
    rewrite forwards_closed by done. simpl. f_equal.
    destruct (recv_opens_window t b (self w) ltac:(lia) Hw) as (_ & Hw1 & _).
    apply (IH _ t); simpl; try done.
    + rewrite boundProcessMessage_debounceMs. done.
    + exists (Some (t + debounceMs (self w))). split; [done|].
      intros d [= <-]. lia.
  - simpl. apply (IH _ prev); try done; [congruence|].
    destruct (fire_window i w w1 o Hw Hstep) as (_ & _ & Hw1).
    destruct o as [d|].
    + destruct Hw1 as [Hw1|(Hw1 & _)].
      * exists (Some d). auto.
      * exists None. split; [done|]. intros ? [=].
    + exists None. split; [done|]. intros ? [=].
Qed.

(** C5. With a debounce window [W > 0]: a batch that arrives while no
    window is open goes to [processMessage] at once and opens a window
    that the timeout due [W] later closes; a batch that arrives while a
    window is open leaves the client as it is.  Hence, in a run of the
    event loop, of a first batch and any number of batches that arrive
    before its window ends exactly one is applied, and batches that
    arrive more than [W] apart are all applied. *)
Theorem debounce_leading_edge s c :
  0 < debounceMs s →
  (∀ t b, window s None →
     boundProcessMessage t b s
     = set_debounceTimer true
         (setTimeout ClearDebounce (debounceMs s) t (processMessage t b s))
     ∧ window (boundProcessMessage t b s) (Some (t + debounceMs s)))
  ∧ (∀ t b d, window s (Some d) →
     boundProcessMessage t b s = s
     ∧ ∀ i w', timers s !! i = Some (d, ClearDebounce) →
         step (Fire i) (World c s) = Some w' →
         window (self w') None ∧ clock w' = d)
  ∧ (∀ t0 b0 es w', window s None →
     run (Recv t0 b0 :: es) (World c s) = Some w' →
     (∀ t, t ∈ arrivals es → t < t0 + debounceMs s) →
     applied (Recv t0 b0 :: es) (World c s) = 1%nat)
  ∧ (∀ es w', window s None →
     run es (World c s) = Some w' →
     well_spaced (debounceMs s) (arrivals es) →
     applied es (World c s) = length (arrivals es)).
Proof.
  intros HW. split_and!.
  - intros t b Hw. by destruct (recv_opens_window t b s HW Hw) as (? & ? & _).
  - intros t b d Hw. split; [by apply (recv_dropped t b s d)|].
    intros i w' Hi Hstep.
    destruct (fire_window i (World c s) w' _ Hw Hstep)
      as (_ & _ & [Hw'|(Hw' & Hc & _)]); [|done].
    exfalso. simpl in Hstep. rewrite Hi in Hstep.
    destruct (_ && _); [|done]. injection Hstep as <-.
    destruct Hw' as [Hd _]. done.
  - intros t0 b0 es w' Hw Hrun Hts.
    cbn [applied]. cbn [run] in Hrun.
    destruct (step (Recv t0 b0) (World c s)) as [w1|] eqn:Hstep; [|done].
    rewrite forwards_closed by done.
    destruct (step_frame _ _ _ Hstep) as [_ HW1].
    simpl in Hstep. destruct (_ && _); [|done]. injection Hstep as <-.
    destruct (recv_opens_window t0 b0 s HW Hw) as (_ & Hw1 & _).
    rewrite (applied_in_window es _ (t0 + debounceMs s)); simpl; try done.
    + by rewrite boundProcessMessage_debounceMs.
    + by left.
  - intros es w' Hw Hrun Hsp.
    destruct (arrivals es) as [|t1 ts] eqn:Ea.
    + rewrite <- Ea.
      apply (applied_spaced es _ w' (debounceMs s) 0); try done.
      * exists None. split; [done|]. intros ? [=].
      * by rewrite Ea.
    + rewrite <- Ea.
      apply (applied_spaced es _ w' (debounceMs s) (t1 - debounceMs s - 1));
        try done.
      * exists None. split; [done|]. intros ? [=].
      * rewrite Ea. simpl. split; [lia|done].
Qed.

(** ** C4: expiry of an entity that was created or updated in place *)

(** An UPSERT that creates the entity, or updates it in place, leaves it
    with its time and a check one poll ahead. *)
Lemma upsert_expiring now s m :
  0 < lifetime s → msg_action m = 0 →
  (∀ n, markers s !! key_of m = Some n →
        (Marker_update (object n) m).1 = true) →
  expiring (key_of m) now (processMarker now s m).
Proof.
  intros HL Ha Hok _.
  rewrite processMarker_timers, processMarker_lifetime by lia.
  split; [|exists (now + 100); split; [set_solver|lia]].
  unfold processMarker. rewrite Ha. simpl.
  rewrite touch_spec, truthy_pos by lia.
  set (s1 := setTimeout _ _ _ _).
  assert (updatedTime s1 !! key_of m = Some now) as Hu
    by (simpl; by rewrite lookup_insert_eq).
  destruct (markers s !! key_of m) as [n|] eqn:E.
  - rewrite (modifyMarker_in_place (key_of m) m s1 n); [done|done|auto].
  - unfold modifyMarker. simpl. by rewrite E.
Qed.

Lemma processMarker_keeps_missing now s m key :
  key_of m ≠ key → key ∉ dom (markers s) →
  key ∉ dom (markers (processMarker now s m)).
Proof.
  intros Hne Hk. destruct (decide (msg_action m = 3)) as [H3|H3].
  - rewrite (delete_all_markers now s m H3). set_solver.
  - rewrite not_elem_of_dom in *.
    by destruct (processMarker_other now s m key Hne H3) as [-> _].
Qed.

Lemma processMarker_expiring now s m key t0 :
  key_of m ≠ key → expiring key t0 s → expiring key t0 (processMarker now s m).
Proof.
  intros Hne Hex Hk.
  destruct (processMarker_gate now s m) as (-> & _ & _).
  destruct (processMarker_timers_grow now s m) as (l & -> & _).
  destruct (decide (msg_action m = 3)) as [H3|H3].
  { rewrite (delete_all_markers now s m H3) in Hk. set_solver. }
  destruct (processMarker_other now s m key Hne H3) as [Hm Hu].
  rewrite Hu. destruct Hex as [Ht (d & Hd & Hle)].
  { apply elem_of_dom. apply elem_of_dom in Hk. by rewrite <- Hm. }
  split; [done|]. exists d. split; [set_solver|done].
Qed.

Lemma boundProcessMessage_expiring now b s key t0 :
  (∀ m, m ∈ b → key_of m ≠ key) →
  (expiring key t0 s → expiring key t0 (boundProcessMessage now b s))
  ∧ (key ∉ dom (markers s) →
     key ∉ dom (markers (boundProcessMessage now b s))).
Proof.
  intros Hb.
  assert ((expiring key t0 s →
           expiring key t0 (foldl (processMarker now) s b))
          ∧ (key ∉ dom (markers s) →
             key ∉ dom (markers (foldl (processMarker now) s b))))
    as [Hex Hmiss].
  { revert s; induction b as [|m b IH]; intros s; simpl; [done|].
    destruct (IH (λ m' Hm', Hb m' ltac:(by right)) (processMarker now s m))
      as [IH1 IH2].
    assert (key_of m ≠ key) as Hne by (apply Hb; by left).
    split; intros H.
    - apply IH1. by apply processMarker_expiring.
    - apply IH2. by apply processMarker_keeps_missing. }
  unfold boundProcessMessage, debouncedProcessMessage.
  destruct (0 <? debounceMs s); [destruct (debounceTimer s)|]; try done.
  split; [|done]. intros H Hk.
  destruct (Hex H Hk) as [Ht (d & Hd & Hle)].
  split; [done|]. exists d. simpl in *. split; [set_solver|done].
Qed.

Lemma runTask_other d k s key :
  k ≠ CheckTime key →
  markers (runTask d k s) !! key = markers s !! key
  ∧ updatedTime (runTask d k s) !! key = updatedTime s !! key
  ∧ timers_grow s (runTask d k s).
Proof.
  intros Hne. destruct k as [name|]; simpl.
  - assert (name ≠ key) as Hn by congruence.
    split_and!; [| |apply checkTime_timers_grow].
    + unfold checkTime. destruct (updatedTime s !! name); [|done].
      destruct (_ <? _); [|done].
      change (markers (emit (removeMarker name s)))
        with (markers (removeMarker name s)).
      by rewrite removeMarker_markers, lookup_delete_ne.
    + unfold checkTime. destruct (updatedTime s !! name); [|done].
      destruct (_ <? _); [|done].
      change (updatedTime (emit (removeMarker name s)))
        with (updatedTime (removeMarker name s)).
      by rewrite removeMarker_other_updatedTime.
  - split_and!; [done..|]. by apply timers_grow_refl.
Qed.

(** A timeout that fires keeps [expiring]; and when it fires later than
    a poll after the lifetime, with no earlier timeout pending, the
    entity is gone. *)
Lemma runTask_expiring d i k s key t0 :
  timers s !! i = Some (d, k) → expiring key t0 s →
  expiring key t0 (runTask d k (set_timers (delete i) s))
  ∧ (key ∉ dom (markers s) →
     key ∉ dom (markers (runTask d k (set_timers (delete i) s))))
  ∧ (t0 + lifetime s + 100 < d → none_before d (timers s) = true →
     key ∉ dom (markers (runTask d k (set_timers (delete i) s)))).
Proof.
  intros Hi Hex. set (s0 := set_timers (delete i) s).
  assert (lifetime (runTask d k s0) = lifetime s) as HL
    by (by rewrite runTask_lifetime).
  assert (t0 + lifetime s + 100 < d → none_before d (timers s) = true →
          key ∉ dom (markers s)) as Hlate.
  { intros Hd Hnb Hk. destruct (Hex Hk) as [_ (d' & Hd' & Hle)].
    pose proof (none_before_le _ _ _ _ Hnb Hd'). lia. }
  destruct (decide (k = CheckTime key)) as [->|Hne].
  - simpl. unfold checkTime.
    change (updatedTime s0) with (updatedTime s).
    change (lifetime s0) with (lifetime s).
    assert (key ∉ dom (markers (emit (removeMarker key s0)))) as Hgone.
    { change (markers (emit (removeMarker key s0)))
        with (markers (removeMarker key s0)).
      rewrite removeMarker_markers, dom_delete_L. set_solver. }
    destruct (updatedTime s !! key) as [u|] eqn:Eu.
    + destruct (Z.ltb_spec (lifetime s) (d - u)) as [Hlt|Hge].
      * split_and!; try done; by intros Hk.
      * split_and!; [|done|].
        -- intros Hk. simpl in Hk. destruct (Hex Hk) as [Ht _].
           assert (u = t0) as -> by congruence.
           split; [done|]. exists (d + 100). simpl. split; [set_solver|lia].
        -- intros Hd Hnb Hk. simpl in Hk. destruct (Hex Hk) as [Ht _].
           assert (u = t0) as -> by congruence. lia.
    + assert (key ∉ dom (markers s)) as Hk.
      { intros Hk. destruct (Hex Hk) as [Ht _]. congruence. }
      split_and!; try done; by intros Hk'.
  - destruct (runTask_other d k s0 key Hne) as (Hm & Hu & (l & El & _)).
    change (markers s0) with (markers s) in Hm.
    change (updatedTime s0) with (updatedTime s) in Hu.
    assert (∀ X : Prop, (key ∈ dom (markers (runTask d k s0)) → X)
            ↔ (key ∈ dom (markers s) → X)) as Hdom.
    { intros X. rewrite !elem_of_dom, Hm. done. }
    split_and!.
    + intros Hk. apply Hdom in Hex as Hex'. 2:{ exact Hk. }
      destruct Hex' as [Ht (d' & Hd' & Hle)]. rewrite Hu, HL. simpl.
      split; [done|]. exists d'. split; [|done]. rewrite El. simpl.
      apply elem_of_app. left.
      apply (elem_of_delete_other _ _ (d, k)); [done..|congruence].
    + intros Hk Hk'. apply Hk. apply elem_of_dom. apply elem_of_dom in Hk'.
      by rewrite <- Hm.
    + intros Hd Hnb Hk'. apply (Hlate Hd Hnb). apply elem_of_dom.
      apply elem_of_dom in Hk'. by rewrite <- Hm.
Qed.

(** After an UPSERT at [t0] that left the entity [expiring], and with no
    further message for its key, the entity is out of the registry at
    every instant later than [t0 + L + 100] that the event loop reaches. *)
Lemma entity_expires es w w' key t0 :
  expiring key t0 (self w) →
  (t0 + lifetime (self w) + 100 < clock w → key ∉ dom (markers (self w))) →
  quiet key es → run es w = Some w' →
  expiring key t0 (self w')
  ∧ (t0 + lifetime (self w) + 100 < clock w' →
     key ∉ dom (markers (self w'))).
Proof.
  revert w; induction es as [|e es IH]; intros w Hex Hlate Hq Hrun.
  - simpl in Hrun. by injection Hrun as <-.
  - simpl in Hrun. destruct (step e w) as [w1|] eqn:Hstep; [|done].
    assert (quiet key es) as Hq'
      by (intros t b m Hin; apply (Hq t b m); by right).
    assert (expiring key t0 (self w1)
            ∧ lifetime (self w1) = lifetime (self w)
            ∧ (t0 + lifetime (self w) + 100 < clock w1 →
               key ∉ dom (markers (self w1)))) as (Hex1 & HL1 & Hlate1).
    { destruct e as [t b|i]; simpl in Hstep.
      - destruct (Z.leb_spec (clock w) t); [|done]. simpl in Hstep.
        destruct (none_before _ _) eqn:Hnb; [|done].
        injection Hstep as <-. simpl.
        destruct (boundProcessMessage_expiring t b (self w) key t0)
          as [H1 H2]; [intros m Hm; apply (Hq t b m); [by left|done]|].
        split; [auto|]. split; [apply boundProcessMessage_lifetime|].
        intros Ht. apply H2. intros Hk.
        destruct (Hex Hk) as [_ (d & Hd & Hle)].
        pose proof (none_before_le _ _ _ _ Hnb Hd). lia.
      - destruct (timers (self w) !! i) as [[d k]|] eqn:Hi; [|done].
        destruct (Z.leb_spec (clock w) d); [|done]. simpl in Hstep.
        destruct (none_before _ _) eqn:Hnb; [|done].
        injection Hstep as <-. simpl.
        destruct (runTask_expiring d i k (self w) key t0 Hi Hex)
          as (H1 & H2 & H3).
        split; [done|]. split; [by rewrite runTask_lifetime|]. auto. }
    rewrite <- HL1. apply (IH w1); try done. by rewrite HL1.
Qed.

(** The eviction of an entity by a timeout comes with one change signal. *)
Lemma eviction_emits_once i w w' key :
  step (Fire i) w = Some w' →
  key ∈ dom (markers (self w)) → key ∉ dom (markers (self w')) →
  changes (self w') = S (changes (self w)).
Proof.
  intros Hstep Hin Hout. simpl in Hstep.
  destruct (timers (self w) !! i) as [[d k]|]; [|done].
  destruct (_ && _); [|done]. injection Hstep as <-. simpl in *.
  destruct k as [name|]; simpl in *; [|done].
  unfold checkTime in *. simpl in *.
  destruct (updatedTime (self w) !! name); [|done].
  destruct (_ <? _); [|done].
  change (changes (emit (removeMarker name (set_timers (delete i) (self w)))))
    with (S (changes (removeMarker name (set_timers (delete i) (self w))))).
  by rewrite removeMarker_changes.
Qed.

(** ** Further properties of the methods *)

(** [touch] with the check it runs worked out: the check finds the time
    just written, so it evicts only under a negative lifetime. *)
Lemma touch_unfold now key s :
  touch now key s
  = if truthy (lifetime s)
    then (if lifetime s <? 0
          then emit (removeMarker key (set_updatedTime <[key := now]> s))
          else setTimeout (CheckTime key) 100 now
                 (set_updatedTime <[key := now]> s))
    else s.
Proof.
  unfold touch, checkTime. destruct (truthy (lifetime s)); [|done]. simpl.
  by rewrite lookup_insert_eq, Z.sub_diag.
Qed.

(** X1. Removing a key that has neither an entity nor an update time
    leaves the client as it is. *)
Theorem removeMarker_missing k s :
  markers s !! k = None → updatedTime s !! k = None → removeMarker k s = s.
Proof.
  intros Hm Hu. rewrite removeMarker_eq, Hm. simpl.
  rewrite !delete_id by done.
  destruct s; simpl; f_equal; [by destruct (truthy _)|set_solver..].
Qed.

(** X2. Removing a key twice is removing it once. *)
Theorem removeMarker_idempotent k s :
  removeMarker k (removeMarker k s) = removeMarker k s.
Proof.
  rewrite (removeMarker_eq k (removeMarker k s)).
  rewrite !(removeMarker_eq k s). simpl. rewrite lookup_delete_eq. simpl.
  f_equal; [apply delete_delete_eq| |set_solver..].
  destruct (truthy _); [apply delete_delete_eq|done].
Qed.

Lemma emit_removeMarker_eq k s :
  emit (removeMarker k s)
  = Client (lifetime s) (debounceMs s) (path s) (debounceTimer s)
      (delete k (markers s))
      (if truthy (lifetime s) then delete k (updatedTime s)
       else updatedTime s)
      (rootObject s ∖ from_option (λ n, {[node_uid n]}) ∅ (markers s !! k))
      (disposed s ∪ from_option (λ n, {[node_uid n]}) ∅ (markers s !! k))
      (timers s) (S (changes s)) (warnings s) (nextUid s).
Proof. by rewrite removeMarker_eq. Qed.

(** X3. A DELETE message leaves the registry without its key and
    otherwise as it was; the node that was under the key is off the root
    and disposed of; when there was none, the root and the disposed nodes
    are untouched; and with a lifetime, no update time is left for the
    key. *)
Theorem delete_removes_entity now s m :
  msg_action m = 2 →
  let s' := processMarker now s m in
  markers s' = delete (key_of m) (markers s)
  ∧ (∀ n, markers s !! key_of m = Some n → released n s')
  ∧ (markers s !! key_of m = None →
     rootObject s' = rootObject s ∧ disposed s' = disposed s)
  ∧ (lifetime s ≠ 0 → updatedTime s' !! key_of m = None).
Proof.
  intros Ha s'. subst s'. unfold processMarker. rewrite Ha. simpl.
  rewrite touch_unfold. unfold truthy, released.
  destruct (Z.eqb_spec (lifetime s) 0) as [E0|E0]; simpl.
  - rewrite removeMarker_eq. simpl. split_and!; [done| | |done].
    + intros n ->. simpl. set_solver.
    + intros ->. simpl. set_solver.
  - destruct (lifetime s <? 0).
    + rewrite emit_removeMarker_eq, removeMarker_eq. simpl.
      rewrite lookup_delete_eq. simpl.
      unfold truthy. destruct (Z.eqb_spec (lifetime s) 0) as [?|_]; [done|].
      simpl.
      split_and!.
      * apply delete_delete_eq.
      * intros n ->. simpl. set_solver.
      * intros ->. simpl. set_solver.
      * intros _. apply lookup_delete_eq.
    + rewrite removeMarker_eq. simpl.
      unfold truthy. destruct (Z.eqb_spec (lifetime s) 0) as [?|_]; [done|].
      simpl.
      split_and!; [done| | |].
      * intros n ->. simpl. set_solver.
      * intros ->. simpl. set_solver.
      * intros _. apply lookup_delete_eq.
Qed.

Lemma removeAll_fold_warnings ks s :
  warnings (foldl (λ acc key, removeMarker key acc) s ks) = warnings s.
Proof.
  revert s; induction ks as [|k ks IH]; intros s; simpl; [done|].
  rewrite IH. by rewrite removeMarker_eq.
Qed.

Lemma touch_warnings now key s : warnings (touch now key s) = warnings s.
Proof.
  rewrite touch_unfold. destruct (truthy _); [|done].
  destruct (_ <? _); [|done]. by rewrite emit_removeMarker_eq.
Qed.

Lemma modifyMarker_warnings key m s :
  warnings (modifyMarker key m s).2 = warnings s.
Proof.
  unfold modifyMarker. destruct (markers s !! key); [|done].
  destruct (Marker_update _ _) as [[] mk]; simpl; [done|].
  by rewrite removeMarker_eq.
Qed.

Lemma processMarker_warnings now s m :
  warnings (processMarker now s m)
  = warnings s
    ++ filter (λ a, a ≠ 0 ∧ a ≠ 2 ∧ a ≠ 3) [msg_action m].
Proof.
  unfold processMarker.
  pose proof (touch_warnings now (key_of m) s) as Ht.
  destruct (Z.eqb_spec (msg_action m) 0) as [E0|E0].
  { rewrite filter_cons_False by tauto. simpl. rewrite app_nil_r.
    pose proof (modifyMarker_warnings (key_of m) m (touch now (key_of m) s))
      as Hm.
    destruct (modifyMarker _ _ _) as [[] s2]; simpl in *; congruence. }
  destruct (Z.eqb_spec (msg_action m) 1) as [E1|E1].
  { rewrite filter_cons_True by lia. simpl. by rewrite Ht, E1. }
  destruct (Z.eqb_spec (msg_action m) 2) as [E2|E2].
  { rewrite filter_cons_False by tauto. simpl. rewrite app_nil_r.
    by rewrite removeMarker_eq. }
  destruct (Z.eqb_spec (msg_action m) 3) as [E3|E3].
  { rewrite filter_cons_False by tauto. simpl. rewrite app_nil_r.
    by rewrite removeAll_fold_warnings. }
  rewrite filter_cons_True by done. simpl. by rewrite Ht.
Qed.

(** X4. A batch warns once for each of its messages whose action is
    none of UPSERT, DELETE and DELETE_ALL, in array order and with the
    action it read; nothing else writes to the console. *)
Theorem processMessage_warnings now arrayMessage s :
  warnings (processMessage now arrayMessage s)
  = warnings s
    ++ filter (λ a, a ≠ 0 ∧ a ≠ 2 ∧ a ≠ 3) (msg_action <$> arrayMessage).
Proof.
  unfold processMessage.
  change (warnings (emit ?x)) with (warnings x).
  revert s; induction arrayMessage as [|m b IH]; intros s; simpl.
  - by rewrite app_nil_r.
  - rewrite IH, processMarker_warnings, <- app_assoc. f_equal.
    symmetry. apply (filter_app _ [msg_action m]).
Qed.

(** ** Further properties of the expiry checks *)

Lemma removeAll_fold_updatedTime_off ks s :
  lifetime s = 0 →
  updatedTime (foldl (λ acc key, removeMarker key acc) s ks) = updatedTime s.
Proof.
  revert s; induction ks as [|k ks IH]; intros s HL; simpl; [done|].
  rewrite IH by (by rewrite removeMarker_lifetime).
  by rewrite removeMarker_updatedTime, truthy_zero.
Qed.

Lemma processMarker_off now s m :
  lifetime s = 0 →
  timers (processMarker now s m) = timers s
  ∧ updatedTime (processMarker now s m) = updatedTime s.
Proof.
  intros HL.
  assert (touch now (key_of m) s = s) as Ht
    by (by rewrite touch_unfold, truthy_zero).
  destruct (processMarker_after_touch now s m) as [_ ->]. rewrite Ht.
  split; [done|]. unfold processMarker. rewrite Ht.
  destruct (msg_action m =? 0).
  { unfold modifyMarker. destruct (markers s !! key_of m); [|done].
    destruct (Marker_update _ _) as [[] mk]; simpl; [done|].
    by rewrite removeMarker_updatedTime; simpl; rewrite truthy_zero. }
  destruct (msg_action m =? 1); [done|].
  destruct (msg_action m =? 2);
    [by rewrite removeMarker_updatedTime, truthy_zero|].
  destruct (msg_action m =? 3); [|done].
  simpl. by apply removeAll_fold_updatedTime_off.
Qed.

(** X5. Without a lifetime the client keeps no update time and arms no
    timeout: a batch leaves [updatedTime] and the timers as they are. *)
Theorem no_lifetime_no_expiry now arrayMessage s :
  lifetime s = 0 →
  timers (processMessage now arrayMessage s) = timers s
  ∧ updatedTime (processMessage now arrayMessage s) = updatedTime s.
Proof.
  intros HL. unfold processMessage.
  change (timers (emit ?x)) with (timers x).
  change (updatedTime (emit ?x)) with (updatedTime x).
  revert s HL; induction arrayMessage as [|m b IH]; intros s HL; simpl.
  - done.
  - destruct (processMarker_off now s m HL) as [Ht Hu].
    destruct (IH (processMarker now s m)) as [-> ->]; [|done].
    rewrite processMarker_lifetime; lia.
Qed.

(** X6. With a positive lifetime a batch arms exactly one expiry check
    for each of its messages, whatever their actions, in array order and
    due one poll after the batch; it removes no pending timeout. *)
Theorem one_check_per_message now arrayMessage s :
  0 < lifetime s →
  timers (processMessage now arrayMessage s)
  = timers s ++ ((λ m, (now + 100, CheckTime (key_of m))) <$> arrayMessage).
Proof.
  intros HL. unfold processMessage.
  change (timers (emit ?x)) with (timers x).
  revert s HL; induction arrayMessage as [|m b IH]; intros s HL; simpl.
  - by rewrite app_nil_r.
  - rewrite IH by (rewrite processMarker_lifetime; lia).
    rewrite processMarker_timers by done. by rewrite <- app_assoc.
Qed.

(** X7. An expiry check never evicts early: a timeout that fires no
    later than a lifetime after the update time of a key leaves the
    entity of that key as it is. *)
Theorem eviction_not_early i w w' key u :
  step (Fire i) w = Some w' →
  updatedTime (self w) !! key = Some u →
  clock w' - u ≤ lifetime (self w) →
  markers (self w') !! key = markers (self w) !! key.
Proof.
  intros Hstep Hu Hle. simpl in Hstep.
  destruct (timers (self w) !! i) as [[d k]|]; [|done].
  destruct (_ && _); [|done]. injection Hstep as <-. simpl in *.
  destruct (decide (k = CheckTime key)) as [->|Hne].
  - simpl. unfold checkTime. simpl. rewrite Hu.
    by destruct (Z.ltb_spec (lifetime (self w)) (d - u)); [lia|].
  - by destruct (runTask_other d k (set_timers (delete i) (self w)) key Hne)
      as (-> & _).
Qed.

Lemma filter_delete_length {A} (P : A → Prop) `{∀ x, Decision (P x)}
    (q : list A) i x :
  q !! i = Some x →
  length (filter P q)
  = (length (filter P (delete i q)) + (if decide (P x) then 1 else 0))%nat.
Proof.
  intros Hi. rewrite delete_take_drop.
  rewrite <- (take_drop_middle q i x) at 1 by done.
  rewrite !filter_app, filter_cons, !length_app.
  destruct (decide (P x)); simpl; lia.
Qed.

Lemma checks_pending_other_message now s m key :
  key_of m ≠ key →
  checks_pending key (processMarker now s m) = checks_pending key s.
Proof.
  intros Hne. unfold checks_pending.
  destruct (processMarker_after_touch now s m) as [_ ->].
  rewrite touch_unfold. destruct (truthy _); [|done].
  destruct (_ <? _).
  - by rewrite emit_removeMarker_eq.
  - simpl. rewrite filter_app, length_app.
    rewrite filter_cons_False by (simpl; congruence). simpl. lia.
Qed.

Lemma checks_pending_quiet_batch now b s key :
  (∀ m, m ∈ b → key_of m ≠ key) →
  checks_pending key (boundProcessMessage now b s) = checks_pending key s.
Proof.
  intros Hb.
  assert (checks_pending key (foldl (processMarker now) s b)
          = checks_pending key s) as Hf.
  { revert s; induction b as [|m b IH]; intros s; simpl; [done|].
    rewrite IH by (intros m' Hm'; apply Hb; by right).
    apply checks_pending_other_message. apply Hb. by left. }
  unfold boundProcessMessage, debouncedProcessMessage, processMessage.
  destruct (0 <? debounceMs s); [destruct (debounceTimer s)|]; try done.
  unfold checks_pending in *. simpl.
  rewrite filter_app, length_app, filter_cons_False by done.
  simpl. rewrite Nat.add_0_r. exact Hf.
Qed.

Lemma checks_pending_fire i w w' key :
  updatedTime (self w) !! key = None → step (Fire i) w = Some w' →
  checks_pending key (self w') = checks_pending key (self w).
Proof.
  intros Hu Hstep. simpl in Hstep.
  destruct (timers (self w) !! i) as [[d k]|] eqn:Hi; [|done].
  destruct (_ && _); [|done]. injection Hstep as <-. simpl.
  unfold checks_pending.
  rewrite (filter_delete_length _ (timers (self w)) i (d, k) Hi).
  set (s0 := set_timers (delete i) (self w)).
  change (delete i (timers (self w))) with (timers s0).
  destruct k as [name|]; simpl.
  - destruct (decide (name = key)) as [->|Hne].
    + rewrite checkTime_absent by done. simpl.
      rewrite filter_app, length_app, filter_cons_True by done.
      by destruct (decide _).
    + destruct (decide _) as [E|_]; [congruence|].
      rewrite Nat.add_0_r. unfold checkTime.
      destruct (updatedTime s0 !! name); [destruct (_ <? _)|].
      * by rewrite emit_removeMarker_eq.
      * simpl. rewrite filter_app, length_app.
        rewrite filter_cons_False by (simpl; congruence). simpl. lia.
      * simpl. rewrite filter_app, length_app.
        rewrite filter_cons_False by (simpl; congruence). simpl. lia.
  - by rewrite Nat.add_0_r.
Qed.

(** X8. The expiry checks of a key that has no update time are never
    given up: as long as no message names the key, every one of them
    re-arms when it fires, and their number stays what it was.  (A
    DELETE leaves such a check behind, see the witness.) *)
Theorem stale_checks_persist es w w' key :
  updatedTime (self w) !! key = None → quiet key es → run es w = Some w' →
  checks_pending key (self w') = checks_pending key (self w).
Proof.
  revert w; induction es as [|e es IH]; intros w Hu Hq Hrun; simpl in Hrun.
  - by injection Hrun as <-.
  - destruct (step e w) as [w1|] eqn:Hstep; [|done].
    assert (quiet key es) as Hq'
      by (intros t b m Hin; apply (Hq t b m); by right).
    assert (updatedTime (self w1) !! key = None
            ∧ checks_pending key (self w1) = checks_pending key (self w))
      as [Hu1 <-].
    { destruct e as [t b|i].
      - simpl in Hstep. destruct (_ && _); [|done].
        injection Hstep as <-. simpl.
        assert (∀ m, m ∈ b → key_of m ≠ key) as Hb
          by (intros m Hm; apply (Hq t b m); [by left|done]).
        split; [by apply boundProcessMessage_keeps_absent|].
        by apply checks_pending_quiet_batch.
      - split; [by destruct (step_fire_keeps_absent i w w1 key Hu Hstep)|].
        by apply (checks_pending_fire i w w1). }
    by apply IH.
Qed.

(** ** The handler without debounce *)

(** X9. With no debounce window ([debounceMs] not positive) the handler
    is [processMessage] itself, and every batch of a run is applied. *)
Theorem no_debounce_applies_all es w w' :
  debounceMs (self w) ≤ 0 → run es w = Some w' →
  (∀ t b, boundProcessMessage t b (self w) = processMessage t b (self w))
  ∧ applied es w = length (arrivals es).
Proof.
  intros HW Hrun. split.
  { intros t b. unfold boundProcessMessage.
    by destruct (Z.ltb_spec 0 (debounceMs (self w))); [lia|]. }
  revert w HW Hrun; induction es as [|e es IH]; intros w HW Hrun; simpl.
  - done.
  - simpl in Hrun. destruct (step e w) as [w1|] eqn:Hstep; [|done].
    destruct (step_frame e w w1 Hstep) as [_ HW1].
    rewrite (IH w1) by (done || lia).
    destruct e as [t b|i]; simpl; [|done].
    unfold forwards.
    by destruct (Z.ltb_spec 0 (debounceMs (self w))); [lia|].
Qed.

(** ** The registry and the scene graph *)

Lemma attached_ext s s' :
  markers s' = markers s → rootObject s' = rootObject s →
  disposed s' = disposed s → nextUid s' = nextUid s →
  attached s → attached s'.
Proof. unfold attached. intros -> -> -> ->. done. Qed.

Lemma removeMarker_attached k s : attached s → attached (removeMarker k s).
Proof.
  intros (Hlt & Hinj & Hroot & Hdis). rewrite removeMarker_eq.
  unfold attached. simpl. split_and!.
  - intros k' n Hk'. apply lookup_delete_Some in Hk' as [_ Hk']. eauto.
  - intros k1 k2 n1 n2 H1 H2. apply lookup_delete_Some in H1 as [_ H1].
    apply lookup_delete_Some in H2 as [_ H2]. eauto.
  - intros u. rewrite elem_of_difference, Hroot. split.
    + intros [(k' & n & Hk' & <-) Hout]. exists k', n. split; [|done].
      apply lookup_delete_Some. split; [|done]. intros ->.
      rewrite Hk' in Hout. simpl in Hout. set_solver.
    + intros (k' & n & Hk' & <-).
      apply lookup_delete_Some in Hk' as [Hne Hk']. split; [eauto|].
      destruct (markers s !! k) as [n0|] eqn:E0; simpl; [|set_solver].
      intros Hu. apply elem_of_singleton in Hu.
      apply Hne. symmetry. by apply (Hinj k' k n n0).
  - intros u Hu. apply elem_of_union in Hu as [Hu|Hu].
    + destruct (Hdis u Hu). split; [done|set_solver].
    + destruct (markers s !! k) as [n0|] eqn:E0; simpl in *; [|set_solver].
      apply elem_of_singleton in Hu as ->. split; [eauto|set_solver].
Qed.

Lemma removeAll_fold_attached ks s :
  attached s → attached (foldl (λ acc key, removeMarker key acc) s ks).
Proof.
  revert s; induction ks as [|k ks IH]; intros s Ha; simpl; [done|].
  apply IH. by apply removeMarker_attached.
Qed.

Lemma removeAll_fold_lookup ks s k :
  k ∈ ks ∨ markers s !! k = None →
  markers (foldl (λ acc key, removeMarker key acc) s ks) !! k = None.
Proof.
  revert s; induction ks as [|k0 ks IH]; intros s H; simpl.
  - destruct H as [H|H]; [by apply elem_of_nil in H|done].
  - apply IH. rewrite removeMarker_markers.
    destruct (decide (k = k0)) as [->|Hne].
    + right. apply lookup_delete_eq.
    + rewrite lookup_delete_ne by done. destruct H as [H|H]; [|by right].
      apply elem_of_cons in H as [?|?]; [done|by left].
Qed.

(** After the loop of DELETE_ALL the registry is already empty: the
    assignment of [{}] that follows changes nothing. *)
Lemma removeAll_loop_empties s :
  markers (foldl (λ acc key, removeMarker key acc) s
             (map_to_list (markers s)).*1) = ∅.
Proof.
  apply map_eq. intros k. rewrite lookup_empty.
  apply removeAll_fold_lookup.
  destruct (markers s !! k) as [n|] eqn:E; [left|by right].
  apply list_elem_of_fmap. exists (k, n). split; [done|].
  by apply elem_of_map_to_list.
Qed.

Lemma removeAll_attached s : attached s → attached (removeAll s).
Proof.
  intros Ha. unfold removeAll.
  pose proof (removeAll_fold_attached (map_to_list (markers s)).*1 s Ha)
    as Hf.
  eapply attached_ext; [..|exact Hf]; try done.
  simpl. by rewrite removeAll_loop_empties.
Qed.

Lemma update_attached key n n' s :
  markers s !! key = Some n → node_uid n' = node_uid n →
  attached s → attached (set_markers <[key := n']> s).
Proof.
  intros E Hid (Hlt & Hinj & Hroot & Hdis). unfold attached. simpl.
  assert (∀ k x, <[key := n']> (markers s) !! k = Some x →
          ∃ y, markers s !! k = Some y ∧ node_uid y = node_uid x) as Hold.
  { intros k x Hk. apply lookup_insert_Some in Hk as [[<- <-]|[_ Hk]]; eauto. }
  split_and!; [| | |done].
  - intros k x Hk. destruct (Hold k x Hk) as (y & Hy & <-). eauto.
  - intros k1 k2 x1 x2 H1 H2 Hx.
    destruct (Hold k1 x1 H1) as (y1 & Hy1 & E1).
    destruct (Hold k2 x2 H2) as (y2 & Hy2 & E2).
    apply (Hinj k1 k2 y1 y2); [done..|congruence].
  - intros u. rewrite Hroot. split.
    + intros (k & x & Hk & <-). destruct (decide (k = key)) as [->|Hne].
      * exists key, n'. rewrite lookup_insert_eq. split; [done|congruence].
      * exists k, x. by rewrite lookup_insert_ne.
    + intros (k & x & Hk & <-). destruct (Hold k x Hk) as (y & Hy & <-).
      eauto.
Qed.

Lemma addMarker_attached key m s :
  markers s !! key = None → attached s → attached (addMarker key m s).
Proof.
  intros E (Hlt & Hinj & Hroot & Hdis). unfold attached. simpl.
  split_and!.
  - intros k x Hk. apply lookup_insert_Some in Hk as [[_ <-]|[_ Hk]].
    + simpl. lia.
    + specialize (Hlt k x Hk). lia.
  - intros k1 k2 x1 x2 H1 H2 Hx.
    apply lookup_insert_Some in H1 as [[<- <-]|[Hn1 H1]];
      apply lookup_insert_Some in H2 as [[<- <-]|[Hn2 H2]]; simpl in *.
    + done.
    + specialize (Hlt k2 x2 H2). lia.
    + specialize (Hlt k1 x1 H1). lia.
    + by apply (Hinj k1 k2 x1 x2).
  - intros u. rewrite elem_of_union, elem_of_singleton, Hroot. split.
    + intros [(k & x & Hk & <-)|Hu]; [|subst u].
      * exists k, x. split; [|done]. rewrite lookup_insert_ne; [done|].
        intros <-. congruence.
      * eexists key, _. by rewrite lookup_insert_eq.
    + intros (k & x & Hk & <-).
      apply lookup_insert_Some in Hk as [[_ <-]|[_ Hk]]; [by right|].
      left. eauto.
  - intros u Hu. destruct (Hdis u Hu) as [Hlt' Hout]. split; [lia|].
    rewrite elem_of_union, elem_of_singleton. intros [?|Hu']; [done|lia].
Qed.

Lemma touch_attached now key s : attached s → attached (touch now key s).
Proof.
  intros Ha. rewrite touch_unfold. destruct (truthy _); [|done].
  destruct (_ <? _).
  - apply (attached_ext (removeMarker key (set_updatedTime <[key:=now]> s)));
      try done.
    apply removeMarker_attached. by apply (attached_ext s).
  - by apply (attached_ext s).
Qed.

Lemma modifyMarker_attached key m s :
  attached s →
  attached (modifyMarker key m s).2
  ∧ ((modifyMarker key m s).1 = false →
     markers (modifyMarker key m s).2 !! key = None).
Proof.
  intros Ha. unfold modifyMarker.
  destruct (markers s !! key) as [n|] eqn:E; [|done].
  destruct (Marker_update _ _) as [[] mk]; simpl.
  - split; [|done]. by apply (update_attached key n).
  - split.
    + apply removeMarker_attached. by apply (update_attached key n).
    + intros _. by rewrite removeMarker_markers, lookup_delete_eq.
Qed.

Lemma processMarker_attached now s m :
  attached s → attached (processMarker now s m).
Proof.
  intros Ha. unfold processMarker.
  pose proof (touch_attached now (key_of m) s Ha) as Ht.
  destruct (msg_action m =? 0).
  { destruct (modifyMarker_attached (key_of m) m _ Ht) as [Hm Hnone].
    destruct (modifyMarker _ _ _) as [[] s2]; simpl in *; [done|].
    apply addMarker_attached; auto. }
  destruct (msg_action m =? 1); [by apply (attached_ext _ _ eq_refl)|].
  destruct (msg_action m =? 2); [by apply removeMarker_attached|].
  destruct (msg_action m =? 3); [by apply removeAll_attached|].
  by apply (attached_ext _ _ eq_refl).
Qed.

Lemma boundProcessMessage_attached now b s :
  attached s → attached (boundProcessMessage now b s).
Proof.
  intros Ha.
  assert (attached (foldl (processMarker now) s b)) as Hf.
  { revert s Ha; induction b as [|m b IH]; intros s Ha; simpl; [done|].
    apply IH. by apply processMarker_attached. }
  unfold boundProcessMessage, debouncedProcessMessage, processMessage.
  destruct (0 <? debounceMs s); [destruct (debounceTimer s)|]; try done;
    by apply (attached_ext _ _ eq_refl).
Qed.

Lemma constructor_attached l d p : attached (MarkerArrayClient l d p).
Proof.
  unfold attached. simpl. split_and!; try done.
  intros u. split; [set_solver|]. by intros (k & n & Hk & _).
Qed.

(** X10. The scene graph follows the registry along every run of the
    event loop: the nodes of the registry are attached to the root and
    were not disposed of, no two keys share a node, nothing else is
    attached, and a disposed node is never attached again. *)
Theorem scene_graph_follows_registry es w w' :
  attached (self w) → run es w = Some w' → attached (self w').
Proof.
  revert w; induction es as [|e es IH]; intros w Ha Hrun; simpl in Hrun.
  - by injection Hrun as <-.
  - destruct (step e w) as [w1|] eqn:Hstep; [|done].
    apply (IH w1); [|done].
    destruct e as [t b|i]; simpl in Hstep.
    + destruct (_ && _); [|done]. injection Hstep as <-. simpl.
      by apply boundProcessMessage_attached.
    + destruct (timers (self w) !! i) as [[d k]|]; [|done].
      destruct (_ && _); [|done]. injection Hstep as <-. simpl.
      assert (attached (set_timers (delete i) (self w))) as Ha0
        by (by apply (attached_ext (self w))).
      destruct k as [name|]; simpl; [|by apply (attached_ext (self w))].
      unfold checkTime. destruct (_ !! name); [destruct (_ <? _)|];
        try (by apply (attached_ext (self w))).
      apply (attached_ext (removeMarker name (set_timers (delete i) (self w))));
        try done.
      by apply removeMarker_attached.
Qed.

(** ** Batches in two parts *)

Lemma removeMarker_emit k s : removeMarker k (emit s) = emit (removeMarker k s).
Proof. by rewrite emit_removeMarker_eq, removeMarker_eq. Qed.

Lemma checkTime_emit now name s :
  checkTime now name (emit s) = emit (checkTime now name s).
Proof.
  unfold checkTime. simpl. destruct (updatedTime s !! name); [|done].
  destruct (_ <? _); [|done]. by rewrite removeMarker_emit.
Qed.

Lemma touch_emit now key s : touch now key (emit s) = emit (touch now key s).
Proof.
  unfold touch. simpl. destruct (truthy _); [|done].
  change (set_updatedTime <[key := now]> (emit s))
    with (emit (set_updatedTime <[key := now]> s)).
  apply checkTime_emit.
Qed.

Lemma removeAll_fold_emit ks s :
  foldl (λ acc key, removeMarker key acc) (emit s) ks
  = emit (foldl (λ acc key, removeMarker key acc) s ks).
Proof.
  revert s; induction ks as [|k ks IH]; intros s; simpl; [done|].
  by rewrite removeMarker_emit, IH.
Qed.

Lemma processMarker_emit now s m :
  processMarker now (emit s) m = emit (processMarker now s m).
Proof.
  unfold processMarker. rewrite touch_emit. set (s1 := touch _ _ s).
  destruct (msg_action m =? 0).
  { unfold modifyMarker. simpl. destruct (markers s1 !! key_of m); [|done].
    destruct (Marker_update _ _) as [[] mk]; simpl; [done|].
    change (set_markers ?f (emit s1)) with (emit (set_markers f s1)).
    by rewrite removeMarker_emit. }
  destruct (msg_action m =? 1); [done|].
  destruct (msg_action m =? 2); [apply removeMarker_emit|].
  destruct (msg_action m =? 3); [|done].
  unfold removeAll. simpl. by rewrite removeAll_fold_emit.
Qed.

(** X11. A batch handed over in two parts at one instant leaves the
    client that the whole batch leaves, but for one more change
    signal. *)
Theorem processMessage_split now b1 b2 s :
  processMessage now b2 (processMessage now b1 s)
  = emit (processMessage now (b1 ++ b2) s).
Proof.
  unfold processMessage. rewrite foldl_app. f_equal.
  generalize (foldl (processMarker now) s b1). intros s1.
  revert s1; induction b2 as [|m b IH]; intros s1; simpl; [done|].
  by rewrite processMarker_emit, IH.
Qed.

(** ** The subscription *)

Local Abbreviation deliver := (deliver Marker_new Marker_update).
Implicit Types (sub : @subscriber Marker).

Lemma unsubscribe_tidy sub : tidy sub → tidy (unsubscribe sub).
Proof.
  intros Hs. pose proof Hs as [Hl Ht]. unfold unsubscribe.
  destruct (rosTopic sub) as [t|] eqn:E; [|exact Hs].
  split; simpl.
  - intros t' Ht'. apply Hl. set_solver.
  - exact Ht.
Qed.

Lemma unsubscribe_listeners sub : tidy sub → listeners (unsubscribe sub) = ∅.
Proof.
  intros [Hl Ht]. unfold unsubscribe.
  destruct (rosTopic sub) as [t|] eqn:E; simpl.
  - apply set_eq. intros t'. split; [|set_solver].
    intros Ht'. apply elem_of_difference in Ht' as [Hin Hout].
    specialize (Hl t' Hin). set_solver.
  - apply set_eq. intros t'. split; [|set_solver].
    intros Hin. specialize (Hl t' Hin). done.
Qed.

(** X12. However often it is called, [subscribe] leaves the handler
    registered on one topic, the new one: the topic subscribed before is
    unsubscribed first.  The registry, the update times and the pending
    timeouts are not reset. *)
Theorem subscribe_single_listener sub :
  tidy sub →
  rosTopic (subscribe sub) = Some (nextTopic sub)
  ∧ listeners (subscribe sub) = {[nextTopic sub]}
  ∧ me (subscribe sub) = me sub
  ∧ tidy (subscribe sub).
Proof.
  intros Hs. pose proof (unsubscribe_listeners sub Hs) as Hl.
  assert (nextTopic (unsubscribe sub) = nextTopic sub
          ∧ me (unsubscribe sub) = me sub) as [Hn Hm]
    by (unfold unsubscribe; by destruct (rosTopic sub)).
  unfold subscribe. simpl. rewrite Hl, Hn, Hm.
  split_and!; [done|set_solver|done|].
  split; simpl.
  - intros t Ht. f_equal. set_solver.
  - intros t [= <-]. lia.
Qed.

(** X13. After [unsubscribe] the handler is registered nowhere, so no
    batch published on any topic changes the client; the client itself is
    left as it is, with its entities and its pending timeouts, and a
    second [unsubscribe] does nothing more. *)
Theorem unsubscribe_stops_delivery sub :
  tidy sub →
  listeners (unsubscribe sub) = ∅
  ∧ me (unsubscribe sub) = me sub
  ∧ unsubscribe (unsubscribe sub) = unsubscribe sub
  ∧ ∀ topic now b,
      deliver topic now b (unsubscribe sub) = unsubscribe sub.
Proof.
  intros Hs. pose proof (unsubscribe_listeners sub Hs) as Hl.
  split_and!; [done| | |].
  - unfold unsubscribe. by destruct (rosTopic sub).
  - unfold unsubscribe at 1. revert Hl. unfold unsubscribe.
    destruct (rosTopic sub) as [t|] eqn:E; simpl; [|by rewrite E].
    intros ->. f_equal. set_solver.
  - intros topic now b. unfold deliver. rewrite Hl.
    destruct (decide _) as [Hin|_]; [set_solver|done].
Qed.

Lemma construct_tidy l d p :
  tidy (construct (Marker:=Marker) l d p)
  ∧ listeners (construct (Marker:=Marker) l d p) = {[0%nat]}
  ∧ me (construct l d p) = MarkerArrayClient l d p.
Proof.
  unfold construct, tidy. simpl. split_and!; try done.
  - intros t Ht. f_equal. set_solver.
  - intros t [= <-]. lia.
Qed.

(** ** Creation, a change signal without a change, the gate *)

(** X14. An UPSERT of a key that is not in the registry binds the key to
    a new node, with the next identity, the frame of the message and the
    marker built from the message and the path; the node is attached to
    the root, nothing is disposed of, and with a positive lifetime the
    update time of the key is the time of the message. *)
Theorem upsert_creates now s m :
  msg_action m = 0 → markers s !! key_of m = None →
  let s' := processMarker now s m in
  markers s'
  = <[key_of m := {| node_uid := nextUid s; frameID := msg_frame_id m;
                     object := Marker_new m (path s) |}]> (markers s)
  ∧ rootObject s' = rootObject s ∪ {[nextUid s]}
  ∧ disposed s' = disposed s
  ∧ nextUid s' = S (nextUid s)
  ∧ (0 < lifetime s → updatedTime s' !! key_of m = Some now).
Proof.
  intros Ha E s'. subst s'. unfold processMarker. rewrite Ha. simpl.
  rewrite touch_unfold. destruct (truthy (lifetime s)) eqn:Ht.
  - destruct (Z.ltb_spec (lifetime s) 0) as [Hneg|Hpos].
    + rewrite emit_removeMarker_eq. unfold modifyMarker, addMarker. simpl.
      rewrite E, lookup_delete_eq. simpl. rewrite delete_id by done.
      split_and!; [done|set_solver|set_solver|done|lia].
    + unfold modifyMarker, addMarker. simpl. rewrite E. simpl.
      split_and!; try done. intros _. apply lookup_insert_eq.
  - unfold modifyMarker, addMarker. rewrite E. simpl.
    split_and!; try done. intros Hpos. by rewrite truthy_pos in Ht.
Qed.

(** X15. An expiry check that finds an update time older than the
    lifetime under a key without entity (left by a DEPRECATED or unknown
    message for a key that was never created) emits a change signal
    although the registry and the root stay as they are; it takes the
    update time away and re-arms nothing. *)
Theorem change_signal_without_change i w w' key u d :
  timers (self w) !! i = Some (d, CheckTime key) →
  updatedTime (self w) !! key = Some u →
  lifetime (self w) < d - u →
  markers (self w) !! key = None →
  step (Fire i) w = Some w' →
  markers (self w') = markers (self w)
  ∧ rootObject (self w') = rootObject (self w)
  ∧ changes (self w') = S (changes (self w))
  ∧ timers (self w') = delete i (timers (self w))
  ∧ (lifetime (self w) ≠ 0 → updatedTime (self w') !! key = None).
Proof.
  intros Hi Hu Hold Hm Hstep. simpl in Hstep. rewrite Hi in Hstep.
  destruct (_ && _); [|done]. injection Hstep as <-. simpl.
  unfold checkTime. simpl. rewrite Hu.
  destruct (Z.ltb_spec (lifetime (self w)) (d - u)); [|lia].
  rewrite emit_removeMarker_eq. simpl. rewrite Hm. simpl.
  split_and!; [by apply delete_id|set_solver|done|done|].
  intros Hne. unfold truthy.
  destruct (Z.eqb_spec (lifetime (self w)) 0); [done|]. simpl.
  apply lookup_delete_eq.
Qed.

(** X16. The debounce handle and the timeout that clears it go
    together along every run: either there is no handle and no such
    timeout, or there is a handle and exactly one such timeout. *)
Theorem gate_and_timeout_agree es w w' :
  (∃ o, window (self w) o) → run es w = Some w' → ∃ o, window (self w') o.
Proof.
  revert w; induction es as [|e es IH]; intros w Hw Hrun; simpl in Hrun.
  - by injection Hrun as <-.
  - destruct (step e w) as [w1|] eqn:Hstep; [|done].
    apply (IH w1); [|done]. destruct Hw as [o Hw].
    destruct e as [t b|i].
    + simpl in Hstep. destruct (_ && _); [|done].
      injection Hstep as <-. simpl.
      destruct (Z.ltb_spec 0 (debounceMs (self w))) as [Hpos|Hoff].
      * destruct o as [d|].
        -- exists (Some d). by rewrite (recv_dropped t b (self w) d).
        -- eexists.
           by destruct (recv_opens_window t b (self w) Hpos Hw) as (_ & ? & _).
      * exists o. unfold boundProcessMessage.
        destruct (Z.ltb_spec 0 (debounceMs (self w))); [lia|].
        destruct (processMessage_gate t b (self w)) as (_ & _ & Hg).
        destruct (processMessage_timers_grow t b (self w)) as (l & El & Hl).
        generalize dependent (processMessage t b (self w)). intros sp Hg El.
        destruct o as [d|]; destruct Hw as [Hd Hc]; split;
          rewrite ?Hg, ?El, ?clears_app; done.
    + destruct (fire_window i w w1 o Hw Hstep) as (_ & _ & Ho).
      destruct o as [d|]; [destruct Ho as [?|(? & _)]|]; eauto.
Qed.

End Properties.

(** * The properties on the test instance *)

Lemma processMessage_keys_replay_witness :
  0 ≤ lifetime client_ttl
  ∧ dom (markers (processMessage kind_new kind_update 5
           [msg "a" 1 0 1; msg "b" 2 0 1; msg "a" 1 2 1] client_ttl))
    = replay (dom (markers client_ttl))
        [msg "a" 1 0 1; msg "b" 2 0 1; msg "a" 1 2 1].
Proof.
  assert (0 ≤ lifetime client_ttl) as H by (simpl; lia).
  split; [exact H|].
  exact (proj1 (processMessage_keys_replay kind_new kind_update 5 _ _ H)).
Defined.

Lemma processMessage_one_change_witness :
  0 ≤ lifetime client_ttl
  ∧ changes (processMessage kind_new kind_update 5
       [msg "a" 1 0 1; msg "b" 2 1 1; msg "" 0 3 1] client_ttl)
    = S (changes client_ttl).
Proof.
  assert (0 ≤ lifetime client_ttl) as H by (simpl; lia).
  split; [exact H|].
  exact (proj2 (processMessage_one_change kind_new kind_update 5 _ _ H)).
Defined.

Lemma delete_all_empties_witness :
  msg_action (msg "" 0 3 0) = 3
  ∧ markers (processMarker kind_new kind_update 9
       (processMessage kind_new kind_update 5
          [msg "a" 1 0 1; msg "b" 2 0 1] client_ttl)
       (msg "" 0 3 0)) = ∅.
Proof.
  split; [reflexivity|].
  exact (proj1 (delete_all_empties kind_new kind_update 9 _ (msg "" 0 3 0)
                  eq_refl)).
Defined.

(** C3 as it is stated fails: with a lifetime, a DEPRECATED message
    writes [updatedTime] and arms an expiry check. *)
Lemma deprecated_message_is_recorded :
  let m := msg "a" 1 1 0 in
  let s' := processMarker kind_new kind_update 7 client_ttl m in
  msg_action m = 1
  ∧ updatedTime client_ttl !! "a1" = None
  ∧ updatedTime s' !! "a1" = Some 7
  ∧ timers client_ttl = []
  ∧ timers s' = [(107, CheckTime "a1")].
Proof. vm_compute. repeat split. Qed.

Lemma skipped_action_effect_witness :
  skipped (msg_action (msg "a" 1 99 0)) ∧ 0 ≤ lifetime client_ttl
  ∧ markers (processMarker kind_new kind_update 7 client_ttl (msg "a" 1 99 0))
    = markers client_ttl.
Proof.
  assert (skipped (msg_action (msg "a" 1 99 0))) as Hs
    by (unfold skipped; simpl; lia).
  assert (0 ≤ lifetime client_ttl) as H by (simpl; lia).
  split; [exact Hs|]. split; [exact H|].
  exact (proj1 (skipped_action_effect kind_new kind_update 7 client_ttl
                  (msg "a" 1 99 0) [] Hs H)).
Defined.

(** C9 as it is stated fails: two different pairs with one key, and a
    DELETE for one pair that removes the entity of the other. *)
Lemma keys_collide :
  let m1 := msg "a1" 1 0 1 in
  let m2 := msg "a" 11 2 1 in
  (msg_ns m1, msg_id m1) ≠ (msg_ns m2, msg_id m2)
  ∧ key_of m1 = key_of m2
  ∧ markers (processMarker kind_new kind_update 0 client_plain m1)
      !! key_of m1
    = Some {| node_uid := 0; frameID := "map"; object := 1 |}
  ∧ markers (processMarker kind_new kind_update 0
       (processMarker kind_new kind_update 0 client_plain m1) m2)
      !! key_of m1 = None.
Proof. split; [discriminate|]. vm_compute. repeat split. Qed.

Lemma key_separates_entities_witness :
  let m1 := msg "a" 1 2 1 in
  let m2 := msg "a" 2 0 1 in
  let s := processMessage kind_new kind_update 0 [m2] client_ttl in
  msg_ns m1 = msg_ns m2 ∧ msg_id m1 ≠ msg_id m2 ∧ msg_action m1 ≠ 3
  ∧ key_of m1 ≠ key_of m2
  ∧ markers (processMarker kind_new kind_update 5 s m1) !! key_of m2
    = markers s !! key_of m2.
Proof.
  intros m1 m2 s.
  assert (msg_ns m1 = msg_ns m2) as Hn by reflexivity.
  assert (msg_id m1 ≠ msg_id m2) as Hi by (simpl; lia).
  assert (msg_action m1 ≠ 3) as Ha by (simpl; lia).
  pose proof (key_separates_entities kind_new kind_update 5 s m1 m2)
    as (Hk & _ & Hsep).
  split; [exact Hn|]. split; [exact Hi|]. split; [exact Ha|].
  split; [exact (Hk Hn Hi)|]. exact (proj1 (Hsep (Hk Hn Hi) Ha)).
Defined.

(** C7 as it is stated fails: without a lifetime the second application
    is made in place, on the same node, and no time is recorded. *)
Lemma upsert_twice_records_no_time :
  let m := msg "a" 1 0 1 in
  let s1 := processMarker kind_new kind_update 10 client_plain m in
  let s2 := processMarker kind_new kind_update 20 s1 m in
  let n1 := {| node_uid := 0; frameID := "map"; object := 1 |} in
  markers s1 !! key_of m = Some n1
  ∧ (kind_update (object n1) m).1 = true
  ∧ markers s2 !! key_of m = Some n1
  ∧ updatedTime s2 !! key_of m = None
  ∧ updatedTime s2 !! key_of m ≠ Some 20.
Proof. vm_compute. repeat split. discriminate. Qed.

Lemma upsert_twice_in_place_witness :
  let m := msg "a" 1 0 1 in
  let s1 := processMarker kind_new kind_update 10 client_ttl m in
  let s2 := processMarker kind_new kind_update 20 s1 m in
  0 ≤ lifetime client_ttl ∧ msg_action m = 0
  ∧ ∃ n1, markers s1 !! key_of m = Some n1
      ∧ ((kind_update (object n1) m).1 = true →
         ∃ n2, markers s2 !! key_of m = Some n2
           ∧ node_uid n2 = node_uid n1
           ∧ frameID n2 = frameID n1
           ∧ object n2 = (kind_update (object n1) m).2
           ∧ dom (markers s2) = dom (markers s1)
           ∧ rootObject s2 = rootObject s1
           ∧ disposed s2 = disposed s1
           ∧ nextUid s2 = nextUid s1
           ∧ (0 < lifetime client_ttl →
              updatedTime s2 !! key_of m = Some 20)
           ∧ (lifetime client_ttl = 0 → updatedTime s2 = updatedTime s1)).
Proof.
  intros m s1 s2.
  assert (0 ≤ lifetime client_ttl) as H by (simpl; lia).
  split; [exact H|]. split; [reflexivity|].
  exact (upsert_twice_in_place kind_new kind_update 10 20 client_ttl m
           H eq_refl).
Defined.

(** C2 as it is stated fails: two messages for one key in a batch leave
    one entity and two expiry checks pending for it. *)
Lemma one_entity_two_checks :
  let s := processMessage kind_new kind_update 0
             [msg "a" 1 0 1; msg "a" 1 0 1] client_ttl in
  0 < lifetime s
  ∧ markers s !! "a1" = Some {| node_uid := 0; frameID := "map"; object := 1 |}
  ∧ timers s = [(100, CheckTime "a1"); (100, CheckTime "a1")]
  ∧ checks_pending "a1" s = 2%nat.
Proof. vm_compute. repeat split. Qed.

Lemma entities_stay_armed_witness :
  let w := World 0 client_ttl in
  let es := [Recv 0 [msg "a" 1 0 1; msg "b" 2 0 1]; Fire 0; Fire 0;
             Recv 150 []] in
  0 < lifetime (self w) ∧ armed (self w)
  ∧ ∃ w', run kind_new kind_update es w = Some w' ∧ armed (self w').
Proof.
  intros w es.
  assert (0 < lifetime (self w)) as H by (simpl; lia).
  pose proof (constructor_armed (Marker:=Z) 1000 0 "/") as Ha.
  split; [exact H|]. split; [exact Ha|].
  destruct (run kind_new kind_update es w) as [w'|] eqn:Hrun;
    [|vm_compute in Hrun; discriminate Hrun].
  exists w'. split; [reflexivity|].
  exact (proj1 (entities_stay_armed kind_new kind_update es w w' H Ha Hrun)).
Defined.

(** C10 as it is stated fails: after the recreation at 50 a DEPRECATED
    message for the key, which is no UPSERT, writes [updatedTime] again,
    and the check due at 1100 evicts the recreated entity. *)
Lemma recreated_entity_evicted_without_upsert :
  let es := recreate_events ++ [Recv 60 [msg "a" 1 1 2]] in
  ∃ w0 w1 w2,
    run kind_new kind_update recreate_events (World 0 client_ttl) = Some w0
    ∧ markers (self w0) !! "a1"
      = Some {| node_uid := 1; frameID := "map"; object := 2 |}
    ∧ updatedTime (self w0) !! "a1" = None
    ∧ run kind_new kind_update (es ++ replicate 30 (Fire 0))
        (World 0 client_ttl) = Some w1
    ∧ markers (self w1) !! "a1"
      = Some {| node_uid := 1; frameID := "map"; object := 2 |}
    ∧ step kind_new kind_update (Fire 0) w1 = Some w2
    ∧ clock w2 = 1100
    ∧ markers (self w2) !! "a1" = None.
Proof.
  intros es.
  destruct (run kind_new kind_update recreate_events (World 0 client_ttl))
    as [w0|] eqn:H0; [|vm_compute in H0; discriminate H0].
  destruct (run kind_new kind_update (es ++ replicate 30 (Fire 0))
              (World 0 client_ttl))
    as [w1|] eqn:H1; [|vm_compute in H1; discriminate H1].
  destruct (step kind_new kind_update (Fire 0) w1)
    as [w2|] eqn:H2;
    [|vm_compute in H1; injection H1 as <-; vm_compute in H2;
      discriminate H2].
  exists w0, w1, w2.
  vm_compute in H0. injection H0 as <-.
  vm_compute in H1. injection H1 as <-.
  vm_compute in H2. injection H2 as <-.
  vm_compute. repeat split.
Qed.

Lemma recreated_entity_outlives_checks_witness :
  let s := processMessage kind_new kind_update 0 [msg "a" 1 0 1] client_ttl in
  let m := msg "a" 1 0 2 in
  let n := {| node_uid := 0; frameID := "map"; object := 1 |} in
  let s' := processMarker kind_new kind_update 50 s m in
  0 < lifetime s ∧ msg_action m = 0
  ∧ markers s !! key_of m = Some n
  ∧ (kind_update (object n) m).1 = false
  ∧ markers s' !! key_of m
    = Some {| node_uid := nextUid s; frameID := msg_frame_id m;
              object := kind_new m (path s) |}
  ∧ updatedTime s' !! key_of m = None.
Proof.
  intros s m n s'.
  assert (0 < lifetime s) as H by (vm_compute; reflexivity).
  assert (markers s !! key_of m = Some n) as E by (vm_compute; reflexivity).
  pose proof (recreated_entity_outlives_checks kind_new kind_update 50 s m n
                H eq_refl E eq_refl) as (Hm & Hu & _).
  split; [exact H|]. split; [reflexivity|]. split; [exact E|].
  split; [reflexivity|]. split; [exact Hm|exact Hu].
Defined.

Lemma debounce_leading_edge_witness :
  let s := client_debounced in
  let b := [msg "a" 1 0 1] in
  0 < debounceMs s ∧ window s None
  ∧ applied kind_new kind_update
      [Recv 0 b; Recv 50 [msg "b" 2 0 1]; Recv 199 []] (World 0 s) = 1%nat
  ∧ applied kind_new kind_update
      [Recv 0 b; Fire 0; Recv 201 b; Fire 0; Recv 700 b] (World 0 s) = 3%nat.
Proof.
  intros s b.
  assert (0 < debounceMs s) as H by (simpl; lia).
  assert (window s None) as Hw by (split; reflexivity).
  pose proof (debounce_leading_edge kind_new kind_update s 0 H)
    as (_ & _ & Hin & Hsp).
  split; [exact H|]. split; [exact Hw|]. split.
  - destruct (run kind_new kind_update
                [Recv 0 b; Recv 50 [msg "b" 2 0 1]; Recv 199 []] (World 0 s))
      as [w'|] eqn:Hrun; [|vm_compute in Hrun; discriminate Hrun].
    apply (Hin 0 b _ w' Hw Hrun).
    intros t Ht. simpl in Ht.
    apply elem_of_cons in Ht as [->|Ht]; [unfold s; simpl; lia|].
    apply list_elem_of_singleton in Ht as ->. unfold s; simpl; lia.
  - destruct (run kind_new kind_update
                [Recv 0 b; Fire 0; Recv 201 b; Fire 0; Recv 700 b] (World 0 s))
      as [w'|] eqn:Hrun; [|vm_compute in Hrun; discriminate Hrun].
    apply (Hsp _ w' Hw Hrun). unfold s. simpl. lia.
Defined.

(** C4. The claim fails on the code after a recreation.  With a lifetime
    of 1000 ms, an UPSERT at 0 and an UPSERT of another kind under the
    same key at 50 (rejected in place, so the entity is recreated), and
    no further message: every expiry check up to 1250, later than
    50 + 1000 + 100, has fired on time and the entity is still in the
    registry, the only change signals being those of the two batches. *)
Theorem recreated_entity_is_not_evicted :
  ∃ w,
    run kind_new kind_update (recreate_events ++ replicate 24 (Fire 0))
      (World 0 client_ttl) = Some w
    ∧ clock w = 1250
    ∧ 50 + lifetime client_ttl + 100 < clock w
    ∧ markers (self w) !! "a1"
      = Some {| node_uid := 1; frameID := "map"; object := 2 |}
    ∧ updatedTime (self w) !! "a1" = None
    ∧ changes (self w) = 2%nat.
Proof.
  destruct (run kind_new kind_update
              (recreate_events ++ replicate 24 (Fire 0)) (World 0 client_ttl))
    as [w|] eqn:Hrun; [|vm_compute in Hrun; discriminate Hrun].
  exists w. vm_compute in Hrun. injection Hrun as <-.
  vm_compute. repeat split.
Qed.

(** And so it stays, however many expiry checks fire after that. *)
Lemma recreated_entity_stays (ixs : list nat) w :
  run kind_new kind_update (recreate_events ++ (Fire <$> ixs))
    (World 0 client_ttl) = Some w →
  markers (self w) !! "a1"
  = Some {| node_uid := 1; frameID := "map"; object := 2 |}.
Proof.
  rewrite run_app.
  destruct (run kind_new kind_update recreate_events (World 0 client_ttl))
    as [w0|] eqn:H0; [|done].
  vm_compute in H0. injection H0 as <-. intros Hrun.
  apply fires_keep_entity with (key := "a1") in Hrun as [_ ->];
    vm_compute; reflexivity.
Qed.

(** For comparison, the entity of a single UPSERT at 0: the check due at
    1100 evicts it, with one change signal after the batch's. *)
Example created_entity_is_evicted :
  ∃ w1 w2,
    run kind_new kind_update (Recv 0 [msg "a" 1 0 1] :: replicate 10 (Fire 0))
      (World 0 client_ttl) = Some w1
    ∧ clock w1 = 1000
    ∧ is_Some (markers (self w1) !! "a1")
    ∧ changes (self w1) = 1%nat
    ∧ step kind_new kind_update (Fire 0) w1 = Some w2
    ∧ clock w2 = 1100
    ∧ markers (self w2) !! "a1" = None
    ∧ changes (self w2) = 2%nat.
Proof.
  destruct (run kind_new kind_update
              (Recv 0 [msg "a" 1 0 1] :: replicate 10 (Fire 0))
              (World 0 client_ttl))
    as [w1|] eqn:H1; [|vm_compute in H1; discriminate H1].
  destruct (step kind_new kind_update (Fire 0) w1) as [w2|] eqn:H2;
    [|vm_compute in H1; injection H1 as <-; vm_compute in H2;
      discriminate H2].
  exists w1, w2.
  vm_compute in H1. injection H1 as <-.
  vm_compute in H2. injection H2 as <-.
  vm_compute. repeat split. by eexists.
Qed.

(** * The further properties on the test instance *)

(** What a run computes, read off the equation of the run. *)
Ltac from_run H :=
  let H' := fresh in
  pose proof H as H'; vm_compute in H'; injection H' as <-;
  vm_compute; try reflexivity.

Lemma removeMarker_missing_witness :
  markers client_ttl !! "a1" = None
  ∧ updatedTime client_ttl !! "a1" = None
  ∧ removeMarker "a1" client_ttl = client_ttl.
Proof.
  assert (markers client_ttl !! "a1" = None) as Hm by reflexivity.
  assert (updatedTime client_ttl !! "a1" = None) as Hu by reflexivity.
  exact (conj Hm (conj Hu (removeMarker_missing "a1" client_ttl Hm Hu))).
Defined.

Lemma delete_removes_entity_witness :
  let s := processMessage kind_new kind_update 0 [msg "a" 1 0 1] client_ttl in
  let m := msg "a" 1 2 1 in
  msg_action m = 2
  ∧ markers (processMarker kind_new kind_update 9 s m)
    = delete (key_of m) (markers s).
Proof.
  intros s m. split; [reflexivity|].
  exact (proj1 (delete_removes_entity kind_new kind_update 9 s m eq_refl)).
Defined.

Lemma no_lifetime_no_expiry_witness :
  lifetime client_plain = 0
  ∧ timers (processMessage kind_new kind_update 5
              [msg "a" 1 0 1; msg "a" 1 2 1] client_plain)
    = timers client_plain.
Proof.
  split; [reflexivity|].
  exact (proj1 (no_lifetime_no_expiry kind_new kind_update 5 _ client_plain
                  eq_refl)).
Defined.

Lemma one_check_per_message_witness :
  0 < lifetime client_ttl
  ∧ timers (processMessage kind_new kind_update 5
              [msg "a" 1 0 1; msg "b" 2 1 1; msg "a" 1 2 1] client_ttl)
    = timers client_ttl
      ++ ((λ m, (5 + 100, CheckTime (key_of m)))
            <$> [msg "a" 1 0 1; msg "b" 2 1 1; msg "a" 1 2 1]).
Proof.
  assert (0 < lifetime client_ttl) as H by (simpl; lia).
  split; [exact H|].
  exact (one_check_per_message kind_new kind_update 5 _ client_ttl H).
Defined.

Lemma eviction_not_early_witness :
  let w := World 0
             (processMessage kind_new kind_update 0 [msg "a" 1 0 1]
                client_ttl) in
  ∃ w', step kind_new kind_update (Fire 0) w = Some w'
    ∧ updatedTime (self w) !! "a1" = Some 0
    ∧ clock w' - 0 ≤ lifetime (self w)
    ∧ markers (self w') !! "a1" = markers (self w) !! "a1".
Proof.
  intros w.
  destruct (step kind_new kind_update (Fire 0) w) as [w'|] eqn:Hstep;
    [|vm_compute in Hstep; discriminate Hstep].
  assert (updatedTime (self w) !! "a1" = Some 0) as Hu by reflexivity.
  assert (clock w' - 0 ≤ lifetime (self w)) as Hle
    by (from_run Hstep; discriminate).
  exists w'. split; [reflexivity|]. split; [exact Hu|]. split; [exact Hle|].
  exact (eviction_not_early kind_new kind_update 0 w w' "a1" 0 Hstep Hu Hle).
Defined.

Lemma stale_checks_persist_witness :
  let w := World 0
             (processMessage kind_new kind_update 0 [msg "a" 1 2 1]
                client_ttl) in
  let es := replicate 3 (Fire 0) in
  updatedTime (self w) !! "a1" = None
  ∧ checks_pending "a1" (self w) = 1%nat
  ∧ ∃ w', run kind_new kind_update es w = Some w'
      ∧ checks_pending "a1" (self w') = checks_pending "a1" (self w).
Proof.
  intros w es.
  assert (updatedTime (self w) !! "a1" = None) as Hu by reflexivity.
  assert (quiet "a1" es) as Hq.
  { intros t b m Hin. apply elem_of_replicate in Hin as [Hin _].
    discriminate Hin. }
  split; [exact Hu|]. split; [reflexivity|].
  destruct (run kind_new kind_update es w) as [w'|] eqn:Hrun;
    [|vm_compute in Hrun; discriminate Hrun].
  exists w'. split; [reflexivity|].
  exact (stale_checks_persist kind_new kind_update es w w' "a1" Hu Hq Hrun).
Defined.

Lemma no_debounce_applies_all_witness :
  let w := World 0 client_ttl in
  let es := [Recv 0 [msg "a" 1 0 1]; Fire 0; Recv 150 []] in
  debounceMs (self w) ≤ 0
  ∧ ∃ w', run kind_new kind_update es w = Some w'
      ∧ applied kind_new kind_update es w = length (arrivals es).
Proof.
  intros w es.
  assert (debounceMs (self w) ≤ 0) as H by (simpl; lia).
  split; [exact H|].
  destruct (run kind_new kind_update es w) as [w'|] eqn:Hrun;
    [|vm_compute in Hrun; discriminate Hrun].
  exists w'. split; [reflexivity|].
  exact (proj2 (no_debounce_applies_all kind_new kind_update es w w' H Hrun)).
Defined.

Lemma scene_graph_follows_registry_witness :
  let w := World 0 client_ttl in
  let es := [Recv 0 [msg "a" 1 0 1; msg "a" 1 0 2; msg "b" 2 0 1]; Fire 0;
             Fire 0; Fire 0; Recv 150 [msg "" 0 3 0]] in
  attached (self w)
  ∧ ∃ w', run kind_new kind_update es w = Some w' ∧ attached (self w').
Proof.
  intros w es.
  pose proof (constructor_attached (Marker:=Z) 1000 0 "/") as Ha.
  split; [exact Ha|].
  destruct (run kind_new kind_update es w) as [w'|] eqn:Hrun;
    [|vm_compute in Hrun; discriminate Hrun].
  exists w'. split; [reflexivity|].
  exact (scene_graph_follows_registry kind_new kind_update es w w' Ha Hrun).
Defined.

Lemma subscribe_single_listener_witness :
  let sub := subscribe (construct (Marker:=Z) 1000 0 "/") in
  tidy sub
  ∧ rosTopic (subscribe sub) = Some (nextTopic sub)
  ∧ listeners (subscribe sub) = {[nextTopic sub]}.
Proof.
  intros sub.
  pose proof (proj1 (construct_tidy (Marker:=Z) 1000 0 "/")) as H0.
  pose proof (subscribe_single_listener _ H0) as (_ & _ & _ & Hs).
  fold sub in Hs.
  pose proof (subscribe_single_listener sub Hs) as (Hr & Hl & _).
  exact (conj Hs (conj Hr Hl)).
Defined.

Lemma unsubscribe_stops_delivery_witness :
  let sub := construct (Marker:=Z) 1000 0 "/" in
  tidy sub
  ∧ listeners (unsubscribe sub) = ∅
  ∧ deliver kind_new kind_update 0 5 [msg "a" 1 0 1] (unsubscribe sub)
    = unsubscribe sub.
Proof.
  intros sub.
  pose proof (proj1 (construct_tidy (Marker:=Z) 1000 0 "/")) as Hs.
  pose proof (unsubscribe_stops_delivery kind_new kind_update sub Hs)
    as (Hl & _ & _ & Hd).
  exact (conj Hs (conj Hl (Hd 0%nat 5 [msg "a" 1 0 1]))).
Defined.

Lemma upsert_creates_witness :
  let m := msg "a" 1 0 1 in
  msg_action m = 0 ∧ markers client_ttl !! key_of m = None
  ∧ markers (processMarker kind_new kind_update 5 client_ttl m)
    = <[key_of m := {| node_uid := nextUid client_ttl;
                       frameID := msg_frame_id m;
                       object := kind_new m (path client_ttl) |}]>
        (markers client_ttl).
Proof.
  intros m.
  assert (markers client_ttl !! key_of m = None) as E by reflexivity.
  split; [reflexivity|]. split; [exact E|].
  exact (proj1 (upsert_creates kind_new kind_update 5 client_ttl m eq_refl E)).
Defined.

Lemma change_signal_without_change_witness :
  let es := Recv 0 [msg "a" 1 1 1] :: replicate 10 (Fire 0) in
  ∃ w w',
    run kind_new kind_update es (World 0 client_ttl) = Some w
    ∧ timers (self w) !! 0%nat = Some (1100, CheckTime "a1")
    ∧ updatedTime (self w) !! "a1" = Some 0
    ∧ markers (self w) !! "a1" = None
    ∧ step kind_new kind_update (Fire 0) w = Some w'
    ∧ markers (self w') = markers (self w)
    ∧ changes (self w') = S (changes (self w)).
Proof.
  intros es.
  destruct (run kind_new kind_update es (World 0 client_ttl))
    as [w|] eqn:Hrun; [|vm_compute in Hrun; discriminate Hrun].
  assert (timers (self w) !! 0%nat = Some (1100, CheckTime "a1")) as Hi
    by from_run Hrun.
  assert (updatedTime (self w) !! "a1" = Some 0) as Hu by from_run Hrun.
  assert (lifetime (self w) < 1100 - 0) as Hold by from_run Hrun.
  assert (markers (self w) !! "a1" = None) as Hm by from_run Hrun.
  destruct (step kind_new kind_update (Fire 0) w) as [w'|] eqn:Hstep.
  2:{ exfalso. revert Hstep. from_run Hrun. discriminate. }
  pose proof (change_signal_without_change kind_new kind_update 0 w w' "a1"
                0 1100 Hi Hu Hold Hm Hstep) as (H1 & _ & H3 & _).
  exists w, w'. repeat (split; [first [reflexivity|assumption]|]).
  exact H3.
Defined.

Lemma gate_and_timeout_agree_witness :
  let w := World 0 client_debounced in
  let es := [Recv 0 [msg "a" 1 0 1]; Recv 50 [msg "b" 2 0 1]; Fire 0] in
  window (self w) None
  ∧ ∃ w', run kind_new kind_update es w = Some w'
      ∧ ∃ o, window (self w') o.
Proof.
  intros w es.
  assert (window (self w) None) as Hw by (split; reflexivity).
  split; [exact Hw|].
  destruct (run kind_new kind_update es w) as [w'|] eqn:Hrun;
    [|vm_compute in Hrun; discriminate Hrun].
  exists w'. split; [reflexivity|].
  exact (gate_and_timeout_agree kind_new kind_update es w w'
           (ex_intro _ None Hw) Hrun).
Defined.

Lemma removeAll_fold_perm_witness :
  let s := processMessage kind_new kind_update 0
             [msg "a" 1 0 1; msg "b" 2 0 1] client_ttl in
  ["a1"; "b2"] ≡ₚ ["b2"; "a1"]
  ∧ foldl (λ acc key, removeMarker key acc) s ["a1"; "b2"]
    = foldl (λ acc key, removeMarker key acc) s ["b2"; "a1"].
Proof.
  intros s.
  assert (["a1"; "b2"] ≡ₚ ["b2"; "a1"]) as Hp by apply perm_swap.
  exact (conj Hp (removeAll_fold_perm _ _ s Hp)).
Defined.

Lemma upsert_expiring_witness :
  let m := msg "a" 1 0 1 in
  0 < lifetime client_ttl ∧ msg_action m = 0
  ∧ expiring (key_of m) 5 (processMarker kind_new kind_update 5 client_ttl m).
Proof.
  intros m.
  assert (0 < lifetime client_ttl) as H by (simpl; lia).
  split; [exact H|]. split; [reflexivity|].
  apply (upsert_expiring kind_new kind_update 5 client_ttl m H eq_refl).
  intros n Hn. vm_compute in Hn. discriminate Hn.
Defined.

Lemma eviction_emits_once_witness :
  let es := Recv 0 [msg "a" 1 0 1] :: replicate 10 (Fire 0) in
  ∃ w w',
    run kind_new kind_update es (World 0 client_ttl) = Some w
    ∧ step kind_new kind_update (Fire 0) w = Some w'
    ∧ ("a1" ∈ dom (markers (self w)))
    ∧ ("a1" ∉ dom (markers (self w')))
    ∧ changes (self w') = S (changes (self w)).
Proof.
  intros es.
  destruct (run kind_new kind_update es (World 0 client_ttl))
    as [w|] eqn:Hrun; [|vm_compute in Hrun; discriminate Hrun].
  destruct (step kind_new kind_update (Fire 0) w) as [w'|] eqn:Hstep.
  2:{ exfalso. revert Hstep. from_run Hrun. discriminate. }
  assert ("a1" ∈ dom (markers (self w))) as Hin.
  { apply elem_of_dom. from_run Hrun. by eexists. }
  assert ("a1" ∉ dom (markers (self w'))) as Hout.
  { apply not_elem_of_dom. revert Hstep. from_run Hrun.
    intros Hstep. injection Hstep as <-. reflexivity. }
  exists w, w'. split; [reflexivity|]. split; [exact Hstep|].
  split; [exact Hin|]. split; [exact Hout|].
  exact (eviction_emits_once kind_new kind_update 0 w w' "a1" Hstep Hin Hout).
Defined.

Lemma entity_expires_witness :
  let w := World 0
             (processMessage kind_new kind_update 0 [msg "a" 1 0 1]
                client_ttl) in
  let es := Recv 50 [msg "b" 2 0 1] :: replicate 22 (Fire 0) in
  expiring "a1" 0 (self w) ∧ quiet "a1" es
  ∧ ∃ w', run kind_new kind_update es w = Some w'
      ∧ 0 + lifetime (self w) + 100 < clock w'
      ∧ ("a1" ∉ dom (markers (self w'))).
Proof.
  intros w es.
  assert (expiring "a1" 0 (self w)) as Hex.
  { intros _. split; [reflexivity|]. exists 100. split; [|vm_compute; discriminate].
    assert (timers (self w) = [(100, CheckTime "a1")]) as -> by reflexivity.
    by left. }
  assert (0 + lifetime (self w) + 100 < clock w →
          "a1" ∉ dom (markers (self w))) as Hlate.
  { intros H. vm_compute in H. discriminate H. }
  assert (quiet "a1" es) as Hq.
  { intros t b m Hin Hm. apply elem_of_cons in Hin as [Hin|Hin].
    - injection Hin as _ ->. apply list_elem_of_singleton in Hm as ->.
      intros Hk. vm_compute in Hk. discriminate Hk.
    - apply elem_of_replicate in Hin as [Hin _]. discriminate Hin. }
  split; [exact Hex|]. split; [exact Hq|].
  destruct (run kind_new kind_update es w) as [w'|] eqn:Hrun;
    [|vm_compute in Hrun; discriminate Hrun].
  assert (0 + lifetime (self w) + 100 < clock w') as Hc by from_run Hrun.
  exists w'. split; [reflexivity|]. split; [exact Hc|].
  exact (proj2 (entity_expires kind_new kind_update es w w' "a1" 0
                  Hex Hlate Hq Hrun) Hc).
Defined.
